(** * til::small_vector<T, N>: a shallow embedding and its properties

    Source: src/inc/til/small_vector.h.

    The container keeps up to [N] elements in a buffer embedded in the
    object and moves to a malloc'ed block once that is exceeded.  The
    embedding threads the object and the C heap through a state-and-error
    monad: an operation returns normally, throws (the exception carries the
    state at the throw), or has undefined behaviour. *)

From stdpp Require Import base numbers list option gmap.

Open Scope Z_scope.

Module til.

(** ** size_t *)

(** [size_t] is 64 bits wide; arithmetic on it wraps around. *)
Definition SIZE_MAX : Z := 2 ^ 64 - 1.
Definition wrap (z : Z) : Z := z mod 2 ^ 64.

(** ** Template arguments *)

(** [template<typename T, size_t N>], together with what the code asks of
    [T]: [sizeof(T)], [operator==] (used by [std::equal]), the value [T()]
    that value-initialisation produces, and whether the default and the
    copy constructor throw.  The move constructor does not throw (line 16);
    a copy has the value it was copied from. *)
Class template_args := {
  T : Type;
  T_eq_dec :: EqDecision T;
  N : Z;
  sizeof_T : Z;
  T_value_init : T;
  T_default_throws : bool;
  T_copy_throws : T -> bool;
}.

(** ** Memory *)

(** A [T*] that designates the first slot of a buffer: null, the object's
    own [_buffer], or a block obtained from [malloc]. *)
Inductive pointer := nullptr | inline_buffer | heap_block (b : nat).

#[global] Instance pointer_eq_dec : EqDecision pointer.
Proof. solve_decision. Defined.

(** The address [p + k] of slot [k] of the buffer that starts at [p]. *)
Definition address : Type := pointer * Z.

(** Iterators and references handed out by the container point into the
    buffer at [_data]; [_data + k] is represented by [k]. *)
Definition iterator : Type := Z.
Definition reference : Type := Z.

(** One [T]-sized slot of storage: [Some v] holds a live object of value
    [v]; [None] is storage without a live object (raw, indeterminate or
    destroyed). *)
Definition slot `{template_args} : Type := option T.

(** A [const T&] or [T&&] parameter.  It is bound to an object outside the
    buffers of the container, whose value the call does not change, or to a
    slot of one of the buffers, as in [v.push_back(v[0])]: then it keeps
    designating that slot whatever happens to [_data]. *)
Inductive const_reference `{template_args} :=
| outside (value : T)
| inside (a : address).

(** The members of the object, lines 322-325. *)
Record small_vector `{template_args} := mk_small_vector {
  _data : pointer;
  _capacity : Z;
  _size : Z;
  _buffer : list slot;
}.

(** The C heap: the live blocks, the number of [malloc] calls made so far
    (also the name of the next block), and for each call whether [malloc]
    finds memory. *)
Record heap `{template_args} := mk_heap {
  blocks : gmap nat (list slot);
  next_block : nat;
  malloc_ok : nat -> bool;
}.

Record state `{template_args} := mk_state {
  self : small_vector;
  mem : heap;
}.

(** [std::length_error], [std::bad_alloc] and [std::out_of_range] as the
    class throws them, and whatever leaves a constructor of [T]. *)
Inductive exception :=
| length_error | bad_alloc | out_of_range | constructor_exception.

Inductive outcome (S A : Type) :=
| Ok (a : A) (s : S)
| Throw (e : exception) (s : S)
| Undefined.
Arguments Ok {S A} a s.
Arguments Throw {S A} e s.
Arguments Undefined {S A}.

Section model.
Context `{template_args}.

Definition M (A : Type) : Type := state -> outcome state A.

Definition ret {A} (a : A) : M A := fun s => Ok a s.
Definition bind {A B} (m : M A) (k : A -> M B) : M B := fun s =>
  match m s with
  | Ok a s' => k a s'
  | Throw e s' => Throw e s'
  | Undefined => Undefined
  end.
Definition throw {A} (e : exception) : M A := fun s => Throw e s.
Definition undefined {A} : M A := fun _ => Undefined.
Definition this : M small_vector := fun s => Ok (self s) s.
Definition modify (f : state -> state) : M unit := fun s => Ok tt (f s).

Definition when (b : bool) (m : M unit) : M unit := if b then m else ret tt.
(** [assert(c)]: a failed assertion aborts a debug build, and a release
    build goes on outside the function's contract. *)
Definition assert (b : bool) : M unit := if b then ret tt else undefined.

(** *** Field assignment *)

Definition with_data (p : pointer) (v : small_vector) : small_vector :=
  mk_small_vector _ p (_capacity v) (_size v) (_buffer v).
Definition with_capacity (c : Z) (v : small_vector) : small_vector :=
  mk_small_vector _ (_data v) c (_size v) (_buffer v).
Definition with_size (n : Z) (v : small_vector) : small_vector :=
  mk_small_vector _ (_data v) (_capacity v) n (_buffer v).
Definition with_buffer (l : list slot) (v : small_vector) : small_vector :=
  mk_small_vector _ (_data v) (_capacity v) (_size v) l.
Definition with_blocks (m : gmap nat (list slot)) (h : heap) : heap :=
  mk_heap _ m (next_block h) (malloc_ok h).

Definition set_data (p : pointer) : M unit :=
  modify (fun s => mk_state _ (with_data p (self s)) (mem s)).
Definition set_capacity (c : Z) : M unit :=
  modify (fun s => mk_state _ (with_capacity c (self s)) (mem s)).
Definition set_size (n : Z) : M unit :=
  modify (fun s => mk_state _ (with_size n (self s)) (mem s)).

(** *** Buffers *)

(** The buffer a pointer held by object [v] designates, in heap [h]. *)
Definition buffer_at (p : pointer) (v : small_vector) (h : heap)
  : option (list slot) :=
  match p with
  | nullptr => None
  | inline_buffer => Some (_buffer v)
  | heap_block b => blocks h !! b
  end.

Definition store_buffer (p : pointer) (l : list slot) (v : small_vector)
    (h : heap) : small_vector * heap :=
  match p with
  | nullptr => (v, h)
  | inline_buffer => (with_buffer l v, h)
  | heap_block b => (v, with_blocks (<[b := l]> (blocks h)) h)
  end.

(** Slots [off, off + n) of a list, when they all exist. *)
Definition slice (off n : Z) (l : list slot) : option (list slot) :=
  if bool_decide (0 <= off /\ 0 <= n /\ off + n <= Z.of_nat (length l))
  then Some (take (Z.to_nat n) (drop (Z.to_nat off) l))
  else None.

(** A list with the slots from [off] on overwritten by [xs]. *)
Definition splice (off : Z) (xs l : list slot) : option (list slot) :=
  if bool_decide (0 <= off /\ off + Z.of_nat (length xs) <= Z.of_nat (length l))
  then Some (take (Z.to_nat off) l ++ xs
               ++ drop (Z.to_nat off + length xs) l)
  else None.

(** Reading [n] slots at [p + off].  Touching no slot never faults;
    otherwise the range has to lie inside a live buffer. *)
Definition read_range (r : address) (n : Z) : M (list slot) := fun s =>
  if bool_decide (n = 0) then Ok [] s else
  match buffer_at r.1 (self s) (mem s) ≫= slice r.2 n with
  | Some xs => Ok xs s
  | None => Undefined
  end.

(** Writing the slots [xs] at [p + off]. *)
Definition write_range (r : address) (xs : list slot) : M unit := fun s =>
  if bool_decide (xs = []) then Ok tt s else
  match buffer_at r.1 (self s) (mem s) ≫= splice r.2 xs with
  | Some l =>
      let '(v, h) := store_buffer r.1 l (self s) (mem s) in
      Ok tt (mk_state _ v h)
  | None => Undefined
  end.

(** *** <memory>, <algorithm>, <cstdlib> *)

(** The object a reference designates, as a read through it finds it;
    none when the slot holds no live object, lies outside its buffer, or
    the buffer has been freed. *)
Definition referent (r : const_reference) (s : state) : option T :=
  match r with
  | outside value => Some value
  | inside a =>
      match buffer_at a.1 (self s) (mem s) with
      | Some buf =>
          if bool_decide (0 <= a.2)
          then match buf !! Z.to_nat a.2 with
               | Some (Some value) => Some value
               | _ => None
               end
          else None
      | None => None
      end
  end.

(** A constructor call [T(args...)], evaluated in a state: [Some (Some x)]
    when it constructs the value [x], [Some None] when it throws, [None]
    when evaluating it is undefined.  It does not change the state. *)
Definition constructor : Type := state -> option (option T).
(** [T(value)] for a [const T& value]. *)
Definition copy_constructor (value : const_reference) : constructor :=
  fun s =>
    match referent value s with
    | Some x => Some (if T_copy_throws x then None else Some x)
    | None => None
    end.
(** [T()] *)
Definition default_constructor : constructor :=
  fun _ => Some (if T_default_throws then None else Some T_value_init).

(** [new (p) T(args...)] *)
Definition placement_new (r : address) (c : constructor) : M unit := fun s =>
  match c s with
  | Some (Some x) => write_range r [Some x] s
  | Some None => Throw constructor_exception s
  | None => Undefined
  end.
Definition destroy_at (r : address) : M unit :=
  write_range r [None].
Definition destroy_n (r : address) (n : Z) : M unit :=
  write_range r (replicate (Z.to_nat n) None).
(** [std::destroy(first, last)], both iterators into one buffer. *)
Definition destroy (first last : address) : M unit :=
  write_range first (replicate (Z.to_nat (last.2 - first.2)) None).
(** [n] objects constructed with the same constructor call at [r].  With
    [n == 0] no constructor runs.  Every call constructs the same value,
    so the first one throws or none does; the algorithms destroy what they
    have constructed before they let the exception out. *)
Definition uninitialized_construct_n (r : address) (n : Z) (c : constructor)
  : M unit := fun s =>
  if bool_decide (n <= 0) then Ok tt s else
  match c s with
  | Some (Some x) => write_range r (replicate (Z.to_nat n) (Some x)) s
  | Some None => Throw constructor_exception s
  | None => Undefined
  end.
Definition uninitialized_value_construct_n (r : address) (n : Z) : M unit :=
  uninitialized_construct_n r n default_constructor.
Definition uninitialized_fill_n (r : address) (n : Z)
    (value : const_reference) : M unit :=
  uninitialized_construct_n r n (copy_constructor value).
(** The moved-from objects keep their storage; their value is left as it
    was. *)
Definition uninitialized_move_n (src : pointer) (n : Z) (dst : pointer)
  : M unit :=
  bind (read_range (src, 0) n) (fun xs => write_range (dst, 0) xs).
(** [std::move(first, last, d_first)] on iterators into one buffer, with
    [d_first] before [first]; returns the end of the destination. *)
Definition move_range (first last d_first : address) : M address :=
  bind (read_range first (last.2 - first.2)) (fun xs =>
  bind (write_range d_first xs) (fun _ =>
  ret (d_first.1, d_first.2 + (last.2 - first.2)))).

(** [std::malloc(bytes)] for an array of [T]: a fresh block of
    [bytes / sizeof(T)] raw slots, or null. *)
Definition malloc (bytes : Z) : M pointer := fun s =>
  let h := mem s in
  let b := next_block h in
  if malloc_ok h b
  then Ok (heap_block b)
         (mk_state _ (self s)
            (mk_heap _
               (<[b := replicate (Z.to_nat (bytes / sizeof_T)) None]> (blocks h))
               (S b) (malloc_ok h)))
  else Ok nullptr
         (mk_state _ (self s) (mk_heap _ (blocks h) (S b) (malloc_ok h))).

(** [std::free(p)]: [p] has to be a live block of the heap. *)
Definition free (p : pointer) : M unit := fun s =>
  match p with
  | heap_block b =>
      if bool_decide (is_Some (blocks (mem s) !! b))
      then Ok tt (mk_state _ (self s)
                    (with_blocks (delete b (blocks (mem s))) (mem s)))
      else Undefined
  | nullptr => Ok tt s
  | inline_buffer => Undefined
  end.

End model.

Notation "'let*' x := m 'in' k" := (bind m (fun x => k))
  (at level 10, x name, m at level 100, k at level 200,
   format "'[v' 'let*'  x  :=  m  'in' '/' k ']'").

(** ** The class *)

Section small_vector.
Context `{template_args}.

(** Line 32: [_data{ &_buffer[0] }], [_capacity = N], [_size = 0].  The
    [N] objects of [T _buffer[N]] are never read before a placement new
    overwrites them, so their slots start out without a value. *)
Definition small_vector_default (h : heap) : state :=
  mk_state _
    (mk_small_vector _ inline_buffer N 0 (replicate (Z.to_nat N) None)) h.

(** Line 56: [static_cast<size_t>(-1) / sizeof(T)]. *)
Definition max_size : Z := SIZE_MAX / sizeof_T.

Definition data (v : small_vector) : pointer := _data v.
Definition capacity (v : small_vector) : Z := _capacity v.
Definition size (v : small_vector) : Z := _size v.
(** Line 62: [return !_data;] as a [size_type]. *)
Definition empty (v : small_vector) : Z :=
  if bool_decide (_data v = nullptr) then 1 else 0.

Definition begin (v : small_vector) : iterator := 0.
Definition end_ (v : small_vector) : iterator := _size v.

(** The slots of [begin(), end()), as an iteration reads them. *)
Definition elements (v : small_vector) (h : heap) : option (list slot) :=
  if bool_decide (_size v = 0) then Some []
  else buffer_at (_data v) v h ≫= slice 0 (_size v).

(** [std::equal(first1, last1, first2, last2)] on random-access
    iterators: the lengths are compared first, then the elements up to
    the first mismatch.  Comparing a slot without a value is undefined. *)
Fixpoint equal_loop (xs ys : list slot) : option bool :=
  match xs, ys with
  | [], _ => Some true
  | Some x :: xs', Some y :: ys' =>
      if decide (x = y) then equal_loop xs' ys' else Some false
  | _, _ => None
  end.

(** Lines 72-75. *)
Definition operator_eq (v other : small_vector) (h : heap) : option bool :=
  if bool_decide (_size v = _size other)
  then xs ← elements v h; ys ← elements other h; equal_loop xs ys
  else Some false.

(** Lines 77-83.  The call [std::swap_ranges(_data, _capacity,
    other._data)] passes a count where the algorithm takes the end of the
    first range; it is read as the exchange of the [_capacity] slots at
    [_data] with those at [other._data].  Nothing else is assigned: both
    [_size] members keep their value, and outside the guard the function
    does nothing. *)
Definition swap (v other : small_vector) (h : heap)
  : option (small_vector * small_vector * heap) :=
  if bool_decide (_capacity v = N) && bool_decide (_capacity other = N) then
    xs ← buffer_at (_data v) v h;
    ys ← buffer_at (_data other) other h;
    xs1 ← slice 0 (_capacity v) xs;
    ys1 ← slice 0 (_capacity v) ys;
    xs' ← splice 0 ys1 xs;
    ys' ← splice 0 xs1 ys;
    let '(v', h1) := store_buffer (_data v) xs' v h in
    let '(other', h2) := store_buffer (_data other) ys' other h1 in
    Some (v', other', h2)
  else Some (v, other, h).

(** Lines 85-119. *)
Definition front : M reference :=
  let* v := this in
  let* _ := assert (bool_decide (_size v <> 0)) in
  ret 0.
Definition back : M reference :=
  let* v := this in
  let* _ := assert (bool_decide (_size v <> 0)) in
  ret (wrap (_size v - 1)).
Definition operator_index (off : Z) : M reference :=
  let* v := this in
  let* _ := assert (bool_decide (off < _size v)) in
  ret off.

(** Lines 121-137. *)
Definition at_ (off : Z) : M reference :=
  let* v := this in
  if bool_decide (off >= _size v) then throw out_of_range
  else ret off.

(** The slot a reference designates. *)
Definition deref (r : reference) (s : state) : option slot :=
  buffer_at (_data (self s)) (self s) (mem s) ≫= (fun l => 
    if bool_decide (0 <= r) then l !! Z.to_nat r else None).

(** Lines 139-151. *)
Definition clear : M unit :=
  let* v := this in
  let* _ := destroy_n (_data v, 0) (_size v) in
  let* _ := when (bool_decide (_capacity v <> N)) (free (_data v)) in
  let* _ := set_data inline_buffer in
  let* _ := set_capacity N in
  set_size 0.

(** Lines 286-311. *)
Definition _grow (add : Z) : M unit :=
  let* v := this in
  let cap := _capacity v in
  let newCap := wrap (cap + Z.max add (cap / 2)) in
  if bool_decide (newCap < cap) || bool_decide (newCap > max_size)
  then throw length_error
  else
    let* data := malloc (wrap (newCap * sizeof_T)) in
    let* _ := when (bool_decide (data = nullptr)) (throw bad_alloc) in
    let* _ := uninitialized_move_n (_data v) (_size v) data in
    let* _ := when (bool_decide (_capacity v <> N)) (free (_data v)) in
    let* _ := set_data data in
    set_capacity newCap.

(** Lines 153-170. *)
Definition resize (newSize : Z) : M unit :=
  let* v := this in
  let* _ :=
    if bool_decide (newSize < _size v) then
      destroy_n (_data v, newSize) (_size v - newSize)
    else if bool_decide (newSize > _size v) then
      let* _ := when (bool_decide (newSize > _capacity v))
                  (_grow (newSize - _capacity v)) in
      let* v := this in
      uninitialized_value_construct_n (_data v, _size v) (newSize - _size v)
    else ret tt in
  set_size newSize.

(** Lines 172-189.  [value] is read at line 185, after [_grow]. *)
Definition resize_fill (newSize : Z) (value : const_reference) : M unit :=
  let* v := this in
  let* _ :=
    if bool_decide (newSize < _size v) then
      destroy_n (_data v, newSize) (_size v - newSize)
    else if bool_decide (newSize > _size v) then
      let* _ := when (bool_decide (newSize > _capacity v))
                  (_grow (newSize - _capacity v)) in
      let* v := this in
      uninitialized_fill_n (_data v, _size v) (newSize - _size v) value
    else ret tt in
  set_size newSize.

(** Lines 191-213. *)
Definition shrink_to_fit : M unit :=
  let* v := this in
  if bool_decide (_capacity v = N) || bool_decide (_size v = _capacity v)
  then ret tt
  else
    let* data :=
      if bool_decide (_size v > N) then
        let* data := malloc (wrap (_size v * sizeof_T)) in
        let* _ := when (bool_decide (data = nullptr)) (throw bad_alloc) in
        ret data
      else ret inline_buffer in
    let* _ := uninitialized_move_n (_data v) (_size v) data in
    let* _ := free (_data v) in
    let* _ := set_data data in
    set_capacity (_size v).

(** Lines 215-235: both overloads copy-construct from [value], which is
    read at lines 222 and 233, after [_grow]. *)
Definition push_back (value : const_reference) : M unit :=
  let* v := this in
  let* _ := when (bool_decide (_size v = _capacity v)) (_grow 1) in
  let* v := this in
  let* _ := placement_new (_data v, _size v) (copy_constructor value) in
  set_size (wrap (_size v + 1)).

(** Lines 237-248.  The constructor call [T(std::forward<Args>(args)...)]
    runs at line 245, after [_grow].  The placement new yields the address
    of the new element, [ref] is bound to it and [return ref] hands it on;
    the result is that address (the declared return type [reference] does
    not accept it). *)
Definition emplace_back (args : constructor) : M address :=
  let* v := this in
  let* _ := when (bool_decide (_size v = _capacity v)) (_grow 1) in
  let* v := this in
  let* _ := placement_new (_data v, _size v) args in
  let* _ := set_size (wrap (_size v + 1)) in
  ret (_data v, _size v).

(** Lines 250-254.  The argument of [std::destroy_at] is written
    [_data + pos]; with [pos] an iterator into the buffer it is read as the
    address [pos] designates.  Control then reaches the closing brace
    without a [return]; the result [None] records that no iterator is
    produced. *)
Definition erase (pos : iterator) : M (option iterator) :=
  let* v := this in
  let* _ := assert (bool_decide (pos >= begin v) && bool_decide (pos < end_ v)) in
  let* _ := destroy_at (_data v, pos) in
  ret None.

(** Lines 256-268.  Only the empty range returns an iterator.  On the
    other path control flows off the end of the function, which has a
    result type: the behaviour is undefined from there. *)
Definition erase_range (first last : iterator) : M (option iterator) :=
  if bool_decide (first >= last) then ret (Some last)
  else
    let* v := this in
    let* _ := assert (bool_decide (first >= begin v)
                      && bool_decide (last <= end_ v)) in
    let it1 := end_ v in
    let* it0 := move_range (_data v, last) (_data v, it1) (_data v, first) in
    let* _ := destroy it0 (_data v, it1) in
    let* _ := set_size it0.2 in
    undefined.


(** Lines 47-54. *)
Definition destructor : M unit :=
  let* v := this in
  let* _ := destroy_n (_data v, 0) (_size v) in
  when (bool_decide (_capacity v <> N)) (free (_data v)).

(** *** The public operations as a client calls them *)

Inductive call :=
| call_push_back (value : const_reference)
| call_emplace_back (args : constructor)
| call_resize (newSize : Z)
| call_resize_fill (newSize : Z) (value : const_reference)
| call_shrink_to_fit
| call_clear
| call_erase (pos : iterator)
| call_erase_range (first last : iterator)
| call_at (off : Z)
| call_front
| call_back
| call_operator_index (off : Z).

Definition discard {A} (m : M A) : M unit := let* _ := m in ret tt.

Definition perform (c : call) : M unit :=
  match c with
  | call_push_back value => push_back value
  | call_emplace_back args => discard (emplace_back args)
  | call_resize newSize => resize newSize
  | call_resize_fill newSize value => resize_fill newSize value
  | call_shrink_to_fit => shrink_to_fit
  | call_clear => clear
  | call_erase pos => discard (erase pos)
  | call_erase_range first last => discard (erase_range first last)
  | call_at off => discard (at_ off)
  | call_front => discard front
  | call_back => discard back
  | call_operator_index off => discard (operator_index off)
  end.

(** Arguments of type [size_t] and iterators are 64-bit values. *)
Definition is_size_t (z : Z) : Prop := 0 <= z <= SIZE_MAX.
Definition well_typed (c : call) : Prop :=
  match c with
  | call_resize n | call_resize_fill n _ | call_erase n | call_at n
  | call_operator_index n => is_size_t n
  | call_erase_range first last => is_size_t first /\ is_size_t last
  | _ => True
  end.

(** The state a call leaves behind, whether it returns or throws (the
    client catches the exception); none when behaviour is undefined. *)
Definition after (c : call) (s : state) : option state :=
  match perform c s with
  | Ok _ s' | Throw _ s' => Some s'
  | Undefined => None
  end.

Fixpoint run (cs : list call) (s : state) : option state :=
  match cs with
  | [] => Some s
  | c :: cs' => after c s ≫= run cs'
  end.

(** A heap in which nothing has been allocated yet. *)
Definition fresh_heap (ok : nat -> bool) : heap := mk_heap _ ∅ 0%nat ok.

Inductive reachable : state -> Prop :=
| reachable_default ok : reachable (small_vector_default (fresh_heap ok))
| reachable_call c s s' :
    reachable s -> well_typed c -> after c s = Some s' -> reachable s'.

(** *** Predicates on states *)

(** An action that never throws. *)
Definition nothrow {A} (m : M A) : Prop :=
  forall (s : state) e s', m s <> Throw e s'.

(** What a client can observe of the container: its members (with them
    the inline elements) and the contents of the heap blocks. *)
Definition unmodified (s s' : state) : Prop :=
  self s' = self s /\ blocks (mem s') = blocks (mem s).

(** The buffer a pointer designates in a state. *)
Definition buffer_of (p : pointer) (s : state) : option (list slot) :=
  buffer_at p (self s) (mem s).

(** Two states that differ at most in the contents of their buffers. *)
Definition same_members (s s' : state) : Prop :=
  _data (self s') = _data (self s) /\
  _capacity (self s') = _capacity (self s) /\
  _size (self s') = _size (self s) /\
  length (_buffer (self s')) = length (_buffer (self s)) /\
  next_block (mem s') = next_block (mem s) /\
  malloc_ok (mem s') = malloc_ok (mem s).

(** The members other than the inline slots. *)
Definition members (s : state) : pointer * Z * Z :=
  (_data (self s), _capacity (self s), _size (self s)).
Definition has_members (x : pointer * Z * Z) (s : state) : Prop :=
  members s = x.

(** What every operation keeps true of the members, whatever the state it
    starts from: [_data] is not null and [_size <= _capacity]. *)
Definition members_ok (x : pointer * Z * Z) : Prop :=
  x.1.1 <> nullptr /\ 0 <= x.2 <= x.1.2 /\ x.1.2 <= SIZE_MAX.

(** A Hoare triple for an action: from a state in [P] the action, unless
    its behaviour is undefined, returns [a] in a state in [Q a] or throws
    in a state in [E]. *)
Definition triple {A} (P : state -> Prop) (m : M A)
    (Q : A -> state -> Prop) (E : state -> Prop) : Prop :=
  forall s, P s ->
    match m s with
    | Ok a s' => Q a s'
    | Throw _ s' => E s'
    | Undefined => True
    end.

(** The members are kept in range by every state the operations leave. *)
Definition keeps_members_ok {A} (m : M A) : Prop :=
  forall x, members_ok x ->
    triple (has_members x) m
      (fun _ s => members_ok (members s)) (fun s => members_ok (members s)).

(** The representation the class relies on: [_size <= _capacity]; the
    container is in inline mode, with [_capacity == N], or [_data] is a
    live heap block of [_capacity] slots and [_capacity > N]. *)
Definition consistent (s : state) : Prop :=
  let v := self s in
  0 <= _size v <= _capacity v /\ _capacity v <= SIZE_MAX /\
  Z.of_nat (length (_buffer v)) = N /\
  match _data v with
  | nullptr => False
  | inline_buffer => _capacity v = N
  | heap_block b =>
      N < _capacity v /\ (b < next_block (mem s))%nat /\
      exists buf, blocks (mem s) !! b = Some buf /\
                  Z.of_nat (length buf) = _capacity v
  end.

(** Every live block of the heap is the buffer of the container: in
    inline mode no block is live. *)
Definition sole_owner (s : state) : Prop :=
  forall b, is_Some (blocks (mem s) !! b) -> _data (self s) = heap_block b.

(** An action whose exceptions all lie in [X]. *)
Definition throws_only {A} (X : exception -> Prop) (m : M A) : Prop :=
  forall (s : state) e s', m s = Throw e s' -> X e.

End small_vector.

(** ** An instance: small_vector<int, 4> *)

Definition int4 : template_args :=
  {| T := Z; N := 4; sizeof_T := 4; T_value_init := 0;
     T_default_throws := false; T_copy_throws := fun _ => false |}.

Section int4_model.
#[local] Existing Instance int4.

(** A heap whose [malloc] always finds memory, and one whose [malloc]
    never does. *)
Definition plentiful : heap := fresh_heap (fun _ => true).
Definition exhausted : heap := fresh_heap (fun _ => false).

Definition push_1_to_4 : list call :=
  call_push_back (outside 1) :: call_push_back (outside 2)
    :: call_push_back (outside 3) :: call_push_back (outside 4) :: nil.
Definition push_1_to_5 : list call :=
  push_1_to_4 ++ [call_push_back (outside 5)].

(** The container after [push_back] of 1, 2, 3, 4: full, in inline
    mode. *)
Definition full4 (h : heap) : state :=
  mk_state _
    (mk_small_vector _ inline_buffer 4 4 [Some 1; Some 2; Some 3; Some 4])
    h.

(** The container after a fifth [push_back]: block 0 of the heap holds
    the elements, the inline slots keep the moved-from values. *)
Definition grown5 : state :=
  mk_state _
    (mk_small_vector _ (heap_block 0) 6 5
       [Some 1; Some 2; Some 3; Some 4])
    (mk_heap _ {[ 0%nat := [Some 1; Some 2; Some 3; Some 4; Some 5; None] ]}
       1%nat (fun _ => true)).


(** A second container, in inline mode, that holds the one element 9. *)
Definition single9 : small_vector :=
  mk_small_vector _ inline_buffer 4 1 [Some 9; None; None; None].

(** A container in inline mode that holds 1, 2. *)
Definition pair12 : small_vector :=
  mk_small_vector _ inline_buffer 4 2 [Some 1; Some 2; None; None].

(** [grown5] after [resize(2)]: still in heap mode, three slots
    destroyed. *)
Definition resized2 : state :=
  mk_state _
    (mk_small_vector _ (heap_block 0) 6 2
       [Some 1; Some 2; Some 3; Some 4])
    (mk_heap _ {[ 0%nat := [Some 1; Some 2; None; None; None; None] ]}
       1%nat (fun _ => true)).

(** [resized2] after [shrink_to_fit()]. *)
Definition shrunk2 : state :=
  mk_state _
    (mk_small_vector _ inline_buffer 2 2
       [Some 1; Some 2; Some 3; Some 4])
    (mk_heap _ ∅ 1%nat (fun _ => true)).

(** [grown5] after [shrink_to_fit()]: the elements have moved to block 1,
    of five slots, and block 0 is released. *)
Definition fitted5 : state :=
  mk_state _
    (mk_small_vector _ (heap_block 1) 5 5
       [Some 1; Some 2; Some 3; Some 4])
    (mk_heap _ {[ 1%nat := [Some 1; Some 2; Some 3; Some 4; Some 5] ]}
       2%nat (fun _ => true)).

(** [full4 exhausted] after a [malloc] call that found no memory. *)
Definition failed5 : state :=
  mk_state _ (self (full4 exhausted)) (mk_heap _ ∅ 1%nat (fun _ => false)).

End int4_model.

(** An element type that wraps an [int] and whose copy constructor throws
    on negative values, for [small_vector<T, 4>]. *)
Definition picky4 : template_args :=
  {| T := Z; N := 4; sizeof_T := 4; T_value_init := 0;
     T_default_throws := false;
     T_copy_throws := fun value => bool_decide (value < 0) |}.

(** ** Properties that hold for every instance *)

Section properties.
Context `{template_args}.

Implicit Types (s : state) (v : small_vector) (h : heap).

(** *** The monad *)

Lemma bind_Ok {A B} (m : M A) (k : A -> M B) s b s' :
  bind m k s = Ok b s' <-> exists a s1, m s = Ok a s1 /\ k a s1 = Ok b s'.
Proof.
  unfold bind. destruct (m s) as [a s1| |]; split.
  - eauto.
  - by intros (? & ? & [= -> ->] & ?).
  - done.
  - by intros (? & ? & ? & ?).
  - done.
  - by intros (? & ? & ? & ?).
Qed.

Lemma bind_Throw {A B} (m : M A) (k : A -> M B) s e s' :
  bind m k s = Throw e s' <->
  m s = Throw e s' \/ exists a s1, m s = Ok a s1 /\ k a s1 = Throw e s'.
Proof.
  unfold bind. destruct (m s) as [a s1|e1 s1|]; split.
  - eauto.
  - by intros [|(? & ? & [= -> ->] & ?)].
  - intros [= -> ->]. by left.
  - by intros [[= -> ->]|(? & ? & ? & ?)].
  - done.
  - by intros [|(? & ? & ? & ?)].
Qed.

Lemma nothrow_bind {A B} (m : M A) (k : A -> M B) :
  nothrow m -> (forall a, nothrow (k a)) -> nothrow (bind m k).
Proof.
  intros Hm Hk s e s' [Hthrow|(a & s1 & _ & Hthrow)]%bind_Throw.
  - exact (Hm _ _ _ Hthrow).
  - exact (Hk _ _ _ _ Hthrow).
Qed.

Lemma nothrow_ret {A} (a : A) : nothrow (ret a).
Proof. done. Qed.

Lemma nothrow_modify f : nothrow (modify f).
Proof. done. Qed.

Lemma nothrow_when b m : nothrow m -> nothrow (when b m).
Proof. destruct b; [done|]. intros _. apply nothrow_ret. Qed.

Lemma nothrow_read_range r n : nothrow (read_range r n).
Proof. intros s e s'. unfold read_range. by repeat case_match. Qed.

Lemma nothrow_write_range r xs : nothrow (write_range r xs).
Proof. intros s e s'. unfold write_range. by repeat case_match. Qed.

Lemma nothrow_free p : nothrow (free p).
Proof. intros s e s'. unfold free. by repeat case_match. Qed.

Lemma nothrow_uninitialized_move_n src n dst :
  nothrow (uninitialized_move_n src n dst).
Proof.
  apply nothrow_bind; [apply nothrow_read_range|].
  intros. apply nothrow_write_range.
Qed.

(** *** Record updates *)

Lemma with_size_same v : with_size (_size v) v = v.
Proof. by destruct v. Qed.

Lemma set_size_same s : set_size (_size (self s)) s = Ok tt s.
Proof.
  unfold set_size, modify. rewrite with_size_same. by destruct s.
Qed.

(** *** Failure leaves the container as it was *)

Lemma unmodified_refl s : unmodified s s.
Proof. done. Qed.

Lemma malloc_inv bytes s p s1 :
  malloc bytes s = Ok p s1 ->
  self s1 = self s /\
  (p = nullptr /\ blocks (mem s1) = blocks (mem s) /\
     malloc_ok (mem s) (next_block (mem s)) = false
   \/ p = heap_block (next_block (mem s)) /\
     malloc_ok (mem s) (next_block (mem s)) = true /\
     blocks (mem s1) =
       <[next_block (mem s) := replicate (Z.to_nat (bytes / sizeof_T)) None]>
         (blocks (mem s))).
Proof.
  unfold malloc. destruct (malloc_ok _ _); intros [= <- <-]; simpl; auto.
Qed.

Lemma nothrow_malloc bytes : nothrow (malloc bytes).
Proof. intros s e s'. unfold malloc. by case_match. Qed.

(** [_grow] throws only before it has written anything. *)
Lemma _grow_Throw add s e s' :
  _grow add s = Throw e s' -> unmodified s s'.
Proof.
  unfold _grow. rewrite bind_Throw. intros [?|(v & s1 & [= <- <-] & Hrest)].
  { done. }
  revert Hrest. case_match.
  { by intros [= _ <-]. }
  rewrite bind_Throw. intros [Hm|(p & s1 & Hmalloc & Hrest)].
  { by apply nothrow_malloc in Hm. }
  apply malloc_inv in Hmalloc as (Hself & Hp).
  revert Hrest. rewrite bind_Throw. intros [Hnull|(? & s2 & _ & Hrest)].
  - destruct Hp as [(-> & Hblocks & _)|(-> & _)]; simpl in Hnull.
    + by injection Hnull as _ <-.
    + done.
  - exfalso. revert Hrest.
    apply nothrow_bind; [apply nothrow_uninitialized_move_n|intros _].
    apply nothrow_bind; [apply nothrow_when, nothrow_free|intros _].
    apply nothrow_bind; [apply nothrow_modify|intros _].
    apply nothrow_modify.
Qed.

Lemma when_grow_Throw b add s e s' :
  when b (_grow add) s = Throw e s' -> unmodified s s'.
Proof. destruct b; [apply _grow_Throw|done]. Qed.

(** The constructors of [T] are the only other source of exceptions. *)
Lemma throws_only_nothrow {A} X (m : M A) : nothrow m -> throws_only X m.
Proof. intros Hm s e s' Hthrow. by apply Hm in Hthrow. Qed.

Lemma throws_only_bind {A B} X (m : M A) (k : A -> M B) :
  throws_only X m -> (forall a, throws_only X (k a)) ->
  throws_only X (bind m k).
Proof.
  intros Hm Hk s e s' [Hthrow|(a & s1 & _ & Hthrow)]%bind_Throw.
  - exact (Hm _ _ _ Hthrow).
  - exact (Hk _ _ _ _ Hthrow).
Qed.

Lemma throws_only_placement_new r c :
  throws_only (fun e => e = constructor_exception) (placement_new r c).
Proof.
  intros s e s'. unfold placement_new. destruct (c s) as [[x|]|].
  - intros Hw. by apply nothrow_write_range in Hw.
  - by intros [= <- _].
  - done.
Qed.

Lemma throws_only_uninitialized_construct_n r n c :
  throws_only (fun e => e = constructor_exception)
    (uninitialized_construct_n r n c).
Proof.
  intros s e s'. unfold uninitialized_construct_n.
  destruct (bool_decide _); [done|]. destruct (c s) as [[x|]|].
  - intros Hw. by apply nothrow_write_range in Hw.
  - by intros [= <- _].
  - done.
Qed.

Lemma push_back_Throw value s e s' :
  push_back value s = Throw e s' -> e <> constructor_exception ->
  unmodified s s'.
Proof.
  unfold push_back. rewrite bind_Throw. intros [?|(v & s1 & [= <- <-] & Hrest)].
  { done. }
  revert Hrest. rewrite bind_Throw. intros [Hg|(? & s2 & _ & Hrest)] He.
  { by eapply when_grow_Throw. }
  exfalso. apply He.
  eapply (throws_only_bind (fun e0 => e0 = constructor_exception));
    [| |exact Hrest].
  { by apply throws_only_nothrow. }
  intros v2.
  apply throws_only_bind; [apply throws_only_placement_new|intros ?].
  apply throws_only_nothrow, nothrow_modify.
Qed.

(** A constructor call throws nothing but [constructor_exception]: that
    is how [constructor] represents it. *)
Lemma emplace_back_Throw args s e s' :
  emplace_back args s = Throw e s' -> e <> constructor_exception ->
  unmodified s s'.
Proof.
  unfold emplace_back.
  rewrite bind_Throw. intros [?|(v & s1 & [= <- <-] & Hrest)].
  { done. }
  revert Hrest. rewrite bind_Throw. intros [Hg|(? & s2 & _ & Hrest)] He.
  { by eapply when_grow_Throw. }
  exfalso. apply He.
  eapply (throws_only_bind (fun e0 => e0 = constructor_exception));
    [| |exact Hrest].
  { by apply throws_only_nothrow. }
  intros v2.
  apply throws_only_bind; [apply throws_only_placement_new|intros ?].
  apply throws_only_nothrow.
  apply nothrow_bind; [apply nothrow_modify|intros ?].
  apply nothrow_ret.
Qed.

Lemma resize_with_Throw (c : constructor) newSize s e s' :
  (let* v := this in
   let* _ :=
     if bool_decide (newSize < _size v) then
       destroy_n (_data v, newSize) (_size v - newSize)
     else if bool_decide (newSize > _size v) then
       let* _ := when (bool_decide (newSize > _capacity v))
                   (_grow (newSize - _capacity v)) in
       let* v := this in
       uninitialized_construct_n (_data v, _size v) (newSize - _size v) c
     else ret tt in
   set_size newSize) s = Throw e s' ->
  e <> constructor_exception ->
  unmodified s s'.
Proof.
  rewrite bind_Throw. intros [?|(v & s1 & [= <- <-] & Hrest)].
  { done. }
  revert Hrest. rewrite bind_Throw. intros [Hbody|(? & s2 & _ & Hrest)] He.
  2: { by apply nothrow_modify in Hrest. }
  revert Hbody.
  destruct (bool_decide (newSize < _size (self s)));
    [|destruct (bool_decide (newSize > _size (self s)))].
  - intros Hd. by apply nothrow_write_range in Hd.
  - rewrite bind_Throw. intros [Hg|(? & s2 & _ & Hrest)].
    { by eapply when_grow_Throw. }
    exfalso. apply He.
    eapply (throws_only_bind (fun e0 => e0 = constructor_exception));
      [| |exact Hrest].
    { by apply throws_only_nothrow. }
    intros v2. apply throws_only_uninitialized_construct_n.
  - done.
Qed.

Lemma resize_Throw newSize s e s' :
  resize newSize s = Throw e s' -> e <> constructor_exception ->
  unmodified s s'.
Proof. apply (resize_with_Throw default_constructor). Qed.

Lemma resize_fill_Throw newSize value s e s' :
  resize_fill newSize value s = Throw e s' -> e <> constructor_exception ->
  unmodified s s'.
Proof. apply (resize_with_Throw (copy_constructor value)). Qed.

Lemma shrink_to_fit_Throw s e s' :
  shrink_to_fit s = Throw e s' -> unmodified s s'.
Proof.
  unfold shrink_to_fit.
  rewrite bind_Throw. intros [?|(v & s1 & [= <- <-] & Hrest)].
  { done. }
  revert Hrest. case_match; [done|].
  rewrite bind_Throw. intros [Halloc|(? & s2 & _ & Hrest)].
  - revert Halloc. case_match; [|done].
    rewrite bind_Throw. intros [Hm|(p & s1 & Hmalloc & Hrest)].
    { by apply nothrow_malloc in Hm. }
    apply malloc_inv in Hmalloc as (Hself & Hp).
    revert Hrest. rewrite bind_Throw. intros [Hnull|(? & s2 & _ & Hrest)].
    + destruct Hp as [(-> & Hblocks & _)|(-> & _)]; simpl in Hnull.
      * by injection Hnull as _ <-.
      * done.
    + done.
  - exfalso. revert Hrest.
    apply nothrow_bind; [apply nothrow_uninitialized_move_n|intros _].
    apply nothrow_bind; [apply nothrow_free|intros _].
    apply nothrow_bind; [apply nothrow_modify|intros _].
    apply nothrow_modify.
Qed.

(** C4: when [push_back], [emplace_back], either [resize] or
    [shrink_to_fit] fails with [std::bad_alloc] (allocation failure) or
    [std::length_error] (capacity overflow), the members of the container,
    its inline slots and every heap block are what they were before the
    call. *)
Theorem failure_leaves_container_unmodified s s' e :
  e = bad_alloc \/ e = length_error ->
  (forall value, push_back value s = Throw e s' -> unmodified s s') /\
  (forall args, emplace_back args s = Throw e s' -> unmodified s s') /\
  (forall newSize, resize newSize s = Throw e s' -> unmodified s s') /\
  (forall newSize value,
      resize_fill newSize value s = Throw e s' -> unmodified s s') /\
  (shrink_to_fit s = Throw e s' -> unmodified s s').
Proof.
  intros He.
  assert (e <> constructor_exception) as Hcontainer
    by (by destruct He as [->| ->]).
  repeat split.
  all: intros; first
    [ by eapply push_back_Throw
    | by eapply emplace_back_Throw
    | by eapply resize_Throw
    | by eapply resize_fill_Throw
    | by eapply shrink_to_fit_Throw ].
Qed.

(** *** resize to the current size *)

(** C10: [resize(n)] with [n == size()], in either overload, returns
    normally and leaves the whole state as it was: members, inline slots,
    heap blocks and the allocator (no slot is destroyed, [malloc] is not
    called). *)
Theorem resize_to_current_size_is_identity s value :
  resize (_size (self s)) s = Ok tt s /\
  resize_fill (_size (self s)) value s = Ok tt s.
Proof.
  unfold resize, resize_fill, bind, this.
  rewrite !bool_decide_false by lia. simpl.
  by rewrite set_size_same.
Qed.

(** *** Checked access *)

Lemma elements_lookup v h l (i : Z) :
  elements v h = Some l -> 0 <= i < _size v ->
  buffer_at (_data v) v h ≫= (fun buf => buf !! Z.to_nat i) = l !! Z.to_nat i.
Proof.
  unfold elements. intros Hl Hi.
  rewrite bool_decide_false in Hl by lia.
  destruct (buffer_at _ _ _) as [buf|]; [simpl in *|done].
  unfold slice in Hl. case_bool_decide; [|done].
  injection Hl as <-. rewrite drop_0, lookup_take_lt by lia. done.
Qed.

(** C8: [at(i)] throws exactly when [i >= size()], and then it is
    [std::out_of_range]; for [i < size()] it returns a reference to slot
    [i], which holds the [i]-th element of [begin(), end()).  The state is
    the same after the call in both cases. *)
Theorem at_checks_the_index s off :
  is_size_t off ->
  ((exists e s', at_ off s = Throw e s') <-> off >= _size (self s)) /\
  (off >= _size (self s) -> at_ off s = Throw out_of_range s) /\
  (off < _size (self s) ->
     at_ off s = Ok off s /\
     forall l, elements (self s) (mem s) = Some l ->
               deref off s = l !! Z.to_nat off).
Proof.
  intros [Hoff _]. unfold at_, bind, this, throw, ret. simpl.
  case_bool_decide as Hcmp; (split; [split|split]).
  - done.
  - eauto.
  - done.
  - lia.
  - by intros (? & ? & ?).
  - done.
  - done.
  - intros Hlt. split; [done|]. intros l Hl. unfold deref.
    rewrite bool_decide_true by done.
    by apply elements_lookup; [|lia].
Qed.

(** *** size_t arithmetic *)

Lemma SIZE_MAX_eq : SIZE_MAX = 18446744073709551615.
Proof. reflexivity. Qed.

Lemma wrap_small z : 0 <= z <= SIZE_MAX -> wrap z = z.
Proof. rewrite SIZE_MAX_eq. intros ?. unfold wrap. apply Z.mod_small. lia. Qed.

Lemma max_size_le : 1 <= sizeof_T -> max_size <= SIZE_MAX.
Proof.
  intros ?. unfold max_size. rewrite SIZE_MAX_eq.
  apply Z.div_le_upper_bound; lia.
Qed.

Lemma max_size_mul z :
  1 <= sizeof_T -> 0 <= z <= max_size -> 0 <= z * sizeof_T <= SIZE_MAX.
Proof.
  intros ? [? Hz]. split; [lia|].
  transitivity (max_size * sizeof_T); [nia|].
  unfold max_size. rewrite Z.mul_comm. apply Z.mul_div_le. lia.
Qed.

Lemma consistent_buffer s :
  consistent s ->
  exists buf, buffer_of (_data (self s)) s = Some buf /\
              Z.of_nat (length buf) = _capacity (self s).
Proof.
  unfold buffer_of.
  intros (_ & _ & Hbuf & Hdata). destruct (_data (self s)); simpl.
  - done.
  - exists (_buffer (self s)). split; [done|lia].
  - destruct Hdata as (_ & _ & buf & ? & ?). eauto.
Qed.

Lemma elements_consistent s :
  consistent s ->
  exists buf, buffer_of (_data (self s)) s = Some buf /\
              Z.of_nat (length buf) = _capacity (self s) /\
              elements (self s) (mem s)
                = Some (take (Z.to_nat (_size (self s))) buf).
Proof.
  intros Hs. destruct (consistent_buffer s Hs) as (buf & Hbuf & Hlen).
  exists buf. split; [done|]. split; [done|].
  destruct Hs as (Hsize & _).
  unfold elements. case_bool_decide as Hz.
  - by rewrite Hz.
  - unfold buffer_of in Hbuf. rewrite Hbuf. simpl. unfold slice.
    rewrite bool_decide_true by lia. by rewrite drop_0.
Qed.

(** *** Buffers *)

Lemma same_members_refl s : same_members s s.
Proof. by repeat split. Qed.

Lemma same_members_trans s1 s2 s3 :
  same_members s1 s2 -> same_members s2 s3 -> same_members s1 s3.
Proof.
  intros (?&?&?&?&?&?) (?&?&?&?&?&?). repeat split; congruence.
Qed.

Lemma buffer_at_store_eq p l v h buf :
  buffer_at p v h = Some buf ->
  let '(v', h') := store_buffer p l v h in buffer_at p v' h' = Some l.
Proof.
  destruct p; simpl; [done|done|]. intros _. apply lookup_insert_eq.
Qed.

Lemma buffer_at_store_ne p q l v h :
  q <> p ->
  let '(v', h') := store_buffer p l v h in buffer_at q v' h' = buffer_at q v h.
Proof.
  destruct p, q; simpl; try done. intros Hne.
  apply lookup_insert_ne. congruence.
Qed.

Lemma read_range_Ok p off n s buf :
  buffer_of p s = Some buf ->
  0 <= off -> 0 <= n -> off + n <= Z.of_nat (length buf) ->
  read_range (p, off) n s
    = Ok (take (Z.to_nat n) (drop (Z.to_nat off) buf)) s.
Proof.
  unfold buffer_of, read_range. intros Hbuf ? ? ?. simpl.
  case_bool_decide as Hn; [by rewrite Hn|].
  rewrite Hbuf. simpl. unfold slice. by rewrite bool_decide_true by lia.
Qed.

Lemma write_range_Ok p off xs s buf :
  buffer_of p s = Some buf ->
  0 <= off -> off + Z.of_nat (length xs) <= Z.of_nat (length buf) ->
  exists s',
    write_range (p, off) xs s = Ok tt s' /\ same_members s s' /\
    buffer_of p s'
      = Some (take (Z.to_nat off) buf ++ xs
                ++ drop (Z.to_nat off + length xs) buf) /\
    forall q, q <> p -> buffer_of q s' = buffer_of q s.
Proof.
  unfold buffer_of, write_range. intros Hbuf ? ?. simpl.
  case_bool_decide as Hxs.
  - exists s. subst xs. simpl. rewrite Nat.add_0_r, take_drop.
    by split_and!; [|apply same_members_refl| |].
  - rewrite Hbuf. simpl. unfold splice. rewrite bool_decide_true by lia.
    pose proof (buffer_at_store_eq p
      (take (Z.to_nat off) buf ++ xs ++ drop (Z.to_nat off + length xs) buf)
      _ _ _ Hbuf) as Heq.
    pose proof (fun q => buffer_at_store_ne p q
      (take (Z.to_nat off) buf ++ xs ++ drop (Z.to_nat off + length xs) buf)
      (self s) (mem s)) as Hne.
    destruct (store_buffer _ _ _ _) as [v' h'] eqn:Hstore.
    eexists. split; [done|]. simpl. split_and!; [|done|done].
    destruct p; simpl in Hstore, Hbuf; simplify_eq; simpl.
    + repeat split; simpl; try done.
      rewrite !length_app, length_take, length_drop. lia.
    + by repeat split.
Qed.

Lemma write_range_same_members r xs s s' :
  write_range r xs s = Ok tt s' -> same_members s s'.
Proof.
  unfold write_range. case_bool_decide.
  { intros [= <-]. apply same_members_refl. }
  destruct (buffer_at _ _ _) as [buf|] eqn:Hbuf; [simpl|done].
  unfold splice. case_bool_decide; [|done].
  destruct r as [[| |b] off]; simpl in *; [done| |].
  - intros [= <-]. injection Hbuf as <-. repeat split; simpl; try done.
    rewrite !length_app, length_take, length_drop. lia.
  - by intros [= <-].
Qed.

Lemma placement_new_Ok_inv r c s s' :
  placement_new r c s = Ok tt s' ->
  exists x, c s = Some (Some x) /\ write_range r [Some x] s = Ok tt s'.
Proof.
  unfold placement_new. destruct (c s) as [[x|]|]; [|done|done]. eauto.
Qed.

Lemma placement_new_same_members r c s s' :
  placement_new r c s = Ok tt s' -> same_members s s'.
Proof.
  intros (x & _ & Hw)%placement_new_Ok_inv.
  by apply write_range_same_members in Hw.
Qed.

Lemma malloc_Ok bytes s :
  malloc_ok (mem s) (next_block (mem s)) = true ->
  exists s',
    malloc bytes s = Ok (heap_block (next_block (mem s))) s' /\
    self s' = self s /\
    next_block (mem s') = S (next_block (mem s)) /\
    malloc_ok (mem s') = malloc_ok (mem s) /\
    buffer_of (heap_block (next_block (mem s))) s'
      = Some (replicate (Z.to_nat (bytes / sizeof_T)) None) /\
    forall q, q <> heap_block (next_block (mem s)) ->
              buffer_of q s' = buffer_of q s.
Proof.
  intros Hok. unfold malloc. rewrite Hok. eexists. split; [done|].
  unfold buffer_of. simpl. split_and!; try done.
  - apply lookup_insert_eq.
  - intros [| |b] Hne; simpl; try done. apply lookup_insert_ne. congruence.
Qed.

Lemma free_Ok b s buf :
  buffer_of (heap_block b) s = Some buf ->
  exists s',
    free (heap_block b) s = Ok tt s' /\ same_members s s' /\
    self s' = self s /\
    forall q, q <> heap_block b -> buffer_of q s' = buffer_of q s.
Proof.
  unfold buffer_of, free. simpl. intros Hb.
  rewrite bool_decide_true by (by rewrite Hb).
  eexists. split; [done|]. simpl. split_and!; try done.
  intros [| |b'] Hne; simpl; try done. apply lookup_delete_ne. congruence.
Qed.

Lemma bind_step {A B} (m : M A) (k : A -> M B) s a s1 :
  m s = Ok a s1 -> bind m k s = k a s1.
Proof. unfold bind. by intros ->. Qed.

Lemma uninitialized_move_n_Ok src n dst s buf dbuf :
  buffer_of src s = Some buf -> buffer_of dst s = Some dbuf ->
  0 <= n <= Z.of_nat (length buf) -> n <= Z.of_nat (length dbuf) ->
  exists s',
    uninitialized_move_n src n dst s = Ok tt s' /\ same_members s s' /\
    buffer_of dst s'
      = Some (take (Z.to_nat n) buf ++ drop (Z.to_nat n) dbuf) /\
    forall q, q <> dst -> buffer_of q s' = buffer_of q s.
Proof.
  intros Hsrc Hdst ? ?. unfold uninitialized_move_n.
  rewrite (bind_step _ _ _ _ _ (read_range_Ok src 0 n s buf Hsrc
    ltac:(lia) ltac:(lia) ltac:(lia))).
  change (Z.to_nat 0) with 0%nat. rewrite drop_0.
  assert (length (take (Z.to_nat n) buf) = Z.to_nat n) as Hlen
    by (rewrite length_take; lia).
  destruct (write_range_Ok dst 0 (take (Z.to_nat n) buf) s dbuf Hdst)
    as (s' & Hw & Hsame & Hbuf' & Hother); [lia|lia|].
  exists s'. rewrite Hlen in Hbuf'. by split_and!.
Qed.

(** *** Growth on a consistent state *)

Lemma _grow_Ok add s :
  consistent s -> 1 <= sizeof_T -> 1 <= add ->
  _capacity (self s) + Z.max add (_capacity (self s) / 2) <= max_size ->
  malloc_ok (mem s) (next_block (mem s)) = true ->
  exists s',
    _grow add s = Ok tt s' /\ consistent s' /\
    _capacity (self s')
      = _capacity (self s) + Z.max add (_capacity (self s) / 2) /\
    _size (self s') = _size (self s) /\
    elements (self s') (mem s') = elements (self s) (mem s) /\
    malloc_ok (mem s') = malloc_ok (mem s).
Proof.
  intros Hs Hsz Hadd Hmax Hok.
  destruct (elements_consistent s Hs) as (buf & Hbuf & Hlen & Helem).
  destruct Hs as (Hsize & Hcap & Hbuf0 & Hdata).
  pose proof (max_size_le Hsz) as Hms.
  assert (0 <= _capacity (self s) / 2) by (apply Z.div_pos; lia).
  unfold _grow. rewrite (bind_step this _ s (self s) s) by done.
  cbv zeta.
  set (c' := _capacity (self s) + Z.max add (_capacity (self s) / 2)) in *.
  rewrite (wrap_small c') by lia.
  rewrite !bool_decide_false by lia. cbn [orb].
  destruct (malloc_Ok (wrap (c' * sizeof_T)) s Hok)
    as (s1 & Hm & Hself1 & Hnext1 & Hok1 & Hnew1 & Hother1).
  rewrite (bind_step _ _ _ _ _ Hm).
  rewrite wrap_small, Z.div_mul in Hnew1 by (try apply max_size_mul; lia).
  rewrite bool_decide_false by done.
  rewrite (bind_step (when false _) _ s1 tt s1) by done.
  set (nb := next_block (mem s)) in *.
  assert (_data (self s) <> heap_block nb) as Hfresh.
  { intros Heq. rewrite Heq in Hdata. subst nb. lia. }
  destruct (uninitialized_move_n_Ok (_data (self s)) (_size (self s))
              (heap_block nb) s1 buf (replicate (Z.to_nat c') None))
    as (s2 & Hmove & Hsame2 & Hnew2 & Hother2).
  { by rewrite Hother1. }
  { done. }
  { lia. }
  { rewrite length_replicate. lia. }
  rewrite (bind_step _ _ _ _ _ Hmove).
  assert (exists s3,
    when (bool_decide (_capacity (self s) <> N)) (free (_data (self s))) s2
      = Ok tt s3 /\ same_members s2 s3 /\
    buffer_of (heap_block nb) s3 = buffer_of (heap_block nb) s2)
    as (s3 & Hfree & Hsame3 & Hnew3).
  { destruct (_data (self s)) as [| |b] eqn:Hd; [done| |].
    - rewrite bool_decide_false by lia. exists s2.
      split_and!; [done|apply same_members_refl|done].
    - rewrite bool_decide_true by lia.
      destruct (free_Ok b s2 buf) as (s3 & ? & ? & _ & Hother3).
      { rewrite Hother2, Hother1 by done. done. }
      exists s3. split_and!; [done|done|]. apply Hother3. congruence. }
  rewrite (bind_step _ _ _ _ _ Hfree).
  unfold set_data, set_capacity, modify, bind. eexists. split; [done|].
  destruct Hsame2 as (Hd2 & Hc2 & Hn2 & Hl2 & Hnx2 & Hmo2).
  destruct Hsame3 as (Hd3 & Hc3 & Hn3 & Hl3 & Hnx3 & Hmo3).
  assert (Z.of_nat (length
    (take (Z.to_nat (_size (self s))) buf
       ++ drop (Z.to_nat (_size (self s))) (replicate (Z.to_nat c') None)))
    = c') as Hlen'.
  { rewrite length_app, length_take, length_drop, length_replicate. lia. }
  rewrite Hnew2 in Hnew3. unfold buffer_of in Hnew3. simpl in Hnew3.
  split_and!; simpl.
  - unfold consistent. simpl.
    rewrite Hn3, Hn2, Hself1, Hl3, Hl2, Hself1, Hnx3, Hnx2, Hnext1.
    split_and!; try lia.
    + destruct (_data (self s)); [done|lia|lia].
    + eauto.
  - done.
  - by rewrite Hn3, Hn2, Hself1.
  - rewrite Helem. unfold elements. simpl.
    rewrite Hn3, Hn2, Hself1.
    destruct (decide (_size (self s) = 0)) as [Hz|Hz].
    + by rewrite bool_decide_true, Hz by done.
    + rewrite bool_decide_false by done. rewrite Hnew3. simpl. unfold slice.
      rewrite bool_decide_true by (rewrite length_app, length_take, length_drop, length_replicate; lia). rewrite drop_0.
      rewrite take_app_le by (rewrite length_take; lia).
      by rewrite take_take, Nat.min_id.
  - by rewrite Hmo3, Hmo2, Hok1.
Qed.

Lemma referent_outside value s : referent (outside value) s = Some value.
Proof. done. Qed.

(** [push_back] of a reference that, once the growth step is over, still
    designates an object, of value [value]. *)
Lemma push_back_Ok r value s xs :
  consistent s -> 1 <= sizeof_T ->
  elements (self s) (mem s) = Some xs ->
  (_size (self s) = _capacity (self s) ->
     _capacity (self s) + Z.max 1 (_capacity (self s) / 2) <= max_size /\
     malloc_ok (mem s) (next_block (mem s)) = true) ->
  (forall s1,
     when (bool_decide (_size (self s) = _capacity (self s))) (_grow 1) s
       = Ok tt s1 -> referent r s1 = Some value) ->
  T_copy_throws value = false ->
  exists s',
    push_back r s = Ok tt s' /\ consistent s' /\
    _size (self s') = _size (self s) + 1 /\
    elements (self s') (mem s') = Some (xs ++ [Some value]) /\
    malloc_ok (mem s') = malloc_ok (mem s).
Proof.
  intros Hs Hsz Helem Hgrow Href Hcopy.
  pose proof (max_size_le Hsz) as Hms.
  unfold push_back. rewrite (bind_step this _ s (self s) s) by done.
  assert (exists s1,
    when (bool_decide (_size (self s) = _capacity (self s))) (_grow 1) s
      = Ok tt s1 /\ consistent s1 /\ _size (self s1) = _size (self s) /\
    _size (self s1) < _capacity (self s1) /\
    elements (self s1) (mem s1) = Some xs /\
    malloc_ok (mem s1) = malloc_ok (mem s))
    as (s1 & Hwhen & Hs1 & Hsize1 & Hroom & Helem1 & Hok1).
  { destruct (decide (_size (self s) = _capacity (self s))) as [Hfull|Hroom].
    - rewrite bool_decide_true by done.
      destruct (Hgrow Hfull) as [Hmax Hok].
      destruct (_grow_Ok 1 s Hs Hsz ltac:(lia) Hmax Hok)
        as (s1 & ? & ? & Hcap1 & ? & Helem1 & ?).
      exists s1. split_and!; try done; [lia|congruence].
    - rewrite bool_decide_false by done. exists s.
      split_and!; try done. destruct Hs as (? & _). lia. }
  rewrite (bind_step _ _ _ _ _ Hwhen).
  rewrite (bind_step this _ s1 (self s1) s1) by done.
  destruct (elements_consistent s1 Hs1) as (buf & Hbuf & Hlen & Helem1').
  rewrite Helem1 in Helem1'. injection Helem1' as ->.
  destruct Hs1 as (Hsize & Hcap & Hbuf0 & Hdata).
  destruct (write_range_Ok (_data (self s1)) (_size (self s1))
              [Some value] s1 buf Hbuf)
    as (s2 & Hw & (Hd2 & Hc2 & Hn2 & Hl2 & Hnx2 & Hmo2) & Hbuf2 & _).
  { lia. }
  { simpl. lia. }
  assert (placement_new (_data (self s1), _size (self s1))
            (copy_constructor r) s1 = Ok tt s2) as Hnew.
  { unfold placement_new, copy_constructor.
    by rewrite (Href s1 Hwhen), Hcopy. }
  rewrite (bind_step _ _ _ _ _ Hnew).
  rewrite wrap_small by lia.
  unfold set_size, modify. eexists. split; [done|].
  match type of Hbuf2 with _ = Some ?l => set (buf2 := l) in * end.
  assert (Z.of_nat (length buf2) = _capacity (self s1)) as Hlen2.
  { subst buf2. rewrite !length_app, length_take, length_drop. simpl. lia. }
  unfold buffer_of in Hbuf2.
  split_and!; simpl.
  - unfold consistent. simpl. rewrite Hc2, Hl2, Hd2, Hnx2.
    split_and!; try lia.
    destruct (_data (self s1)); [done|done|].
    simpl in Hbuf2. destruct Hdata as (? & ? & _). eauto.
  - lia.
  - unfold elements. simpl. rewrite bool_decide_false by lia.
    rewrite Hd2.
    assert (forall p v n h, buffer_at p (with_size n v) h = buffer_at p v h)
      as -> by (by intros []).
    rewrite Hbuf2. simpl. unfold slice.
    rewrite bool_decide_true by lia. rewrite drop_0. subst buf2.
    f_equal. rewrite app_assoc.
    apply take_app_length'.
    rewrite length_app, length_take. simpl. lia.
  - congruence.
Qed.


(** *** A sequence of push_back calls *)

Lemma consistent_default h :
  0 <= N <= SIZE_MAX -> consistent (small_vector_default h).
Proof.
  intros ?. unfold consistent, small_vector_default. simpl.
  rewrite length_replicate. split_and!; lia.
Qed.




(** *** The growth formula *)

(** [newCap < cap] detects the wrap-around of [cap + m] exactly. *)
Lemma wrap_add_lt c m :
  is_size_t c -> is_size_t m -> (wrap (c + m) < c <-> c + m > SIZE_MAX).
Proof.
  unfold is_size_t. rewrite SIZE_MAX_eq. intros ? ?.
  destruct (decide (c + m <= 18446744073709551615)) as [Hfit|Hwrap].
  - rewrite wrap_small by (rewrite SIZE_MAX_eq; lia). lia.
  - unfold wrap.
    replace (c + m) with (c + m - 2 ^ 64 + 1 * 2 ^ 64) by lia.
    rewrite Z_mod_plus_full, Z.mod_small by lia. lia.
Qed.

Lemma grow_amount_size_t c add :
  is_size_t c -> is_size_t add -> is_size_t (Z.max add (c / 2)).
Proof.
  unfold is_size_t. intros ? ?.
  assert (0 <= c / 2 <= c) by (split; [apply Z.div_pos|apply Z.div_le_upper_bound]; lia).
  lia.
Qed.

(** The two ways [_grow] throws. *)
Lemma _grow_Throw_reason add s e s' :
  let c := _capacity (self s) in
  let newCap := wrap (c + Z.max add (c / 2)) in
  _grow add s = Throw e s' ->
  e = length_error /\ (newCap < c \/ newCap > max_size) \/
  e = bad_alloc /\ ~ (newCap < c \/ newCap > max_size).
Proof.
  intros c newCap. unfold _grow.
  rewrite (bind_step this _ s (self s) s) by done. cbv zeta.
  fold c. fold newCap.
  rewrite <- bool_decide_or.
  destruct (decide (newCap < c \/ newCap > max_size)) as [Hover|Hfit].
  - rewrite bool_decide_true by done. intros [= <- _]. by left.
  - rewrite bool_decide_false by done. intros Hthrow. right.
    split; [|done]. revert Hthrow.
    rewrite bind_Throw. intros [Hm|(p & s1 & _ & Hrest)].
    { by apply nothrow_malloc in Hm. }
    revert Hrest. rewrite bind_Throw. intros [Hnull|(? & s2 & _ & Hrest)].
    + revert Hnull. unfold when. case_bool_decide; [|done].
      by intros [= <- _].
    + exfalso. revert Hrest.
      apply nothrow_bind; [apply nothrow_uninitialized_move_n|intros _].
      apply nothrow_bind; [apply nothrow_when, nothrow_free|intros _].
      apply nothrow_bind; [apply nothrow_modify|intros _].
      apply nothrow_modify.
Qed.

Lemma _grow_Ok_capacity add s s' :
  let c := _capacity (self s) in
  let newCap := wrap (c + Z.max add (c / 2)) in
  _grow add s = Ok tt s' ->
  _capacity (self s') = newCap /\ ~ (newCap < c \/ newCap > max_size).
Proof.
  intros c newCap. unfold _grow.
  rewrite (bind_step this _ s (self s) s) by done. cbv zeta.
  fold c. fold newCap.
  rewrite <- bool_decide_or.
  destruct (decide (newCap < c \/ newCap > max_size)) as [Hover|Hfit].
  { by rewrite bool_decide_true by done. }
  rewrite bool_decide_false by done. intros Hrun. split; [|done].
  apply bind_Ok in Hrun as (? & ? & _ & Hrun).
  apply bind_Ok in Hrun as (? & ? & _ & Hrun).
  apply bind_Ok in Hrun as (? & ? & _ & Hrun).
  apply bind_Ok in Hrun as (? & ? & _ & Hrun).
  apply bind_Ok in Hrun as (? & ? & _ & Hrun).
  by injection Hrun as <-.
Qed.

(** C3: a growth request of [add] slots from capacity [c] computes
    [c + max(add, c / 2)].  [_grow] throws [std::length_error] exactly
    when that value does not fit [size_t] or exceeds [max_size()]; when it
    returns, the capacity is that value, which is at least [c + add]; on a
    consistent container it does return when the value fits and [malloc]
    finds memory.  A [push_back] onto a full container of capacity 4
    that returns leaves capacity 6; and it does return, on a consistent
    container, when [malloc] finds memory, 6 does not exceed [max_size()]
    and the copy of the pushed object does not throw. *)
Theorem grow_capacity_formula add s :
  1 <= sizeof_T -> is_size_t (_capacity (self s)) -> is_size_t add ->
  let c := _capacity (self s) in
  let c' := c + Z.max add (c / 2) in
  ((exists s', _grow add s = Throw length_error s') <->
     c' > SIZE_MAX \/ c' > max_size) /\
  (forall s', _grow add s = Ok tt s' ->
     _capacity (self s') = c' /\ c + add <= _capacity (self s')) /\
  (consistent s -> 1 <= add -> c' <= max_size ->
     malloc_ok (mem s) (next_block (mem s)) = true ->
     exists s', _grow add s = Ok tt s' /\ _capacity (self s') = c') /\
  (c = 4 -> _size (self s) = 4 ->
     (forall value s',
        push_back value s = Ok tt s' -> _capacity (self s') = 6) /\
     (consistent s -> 6 <= max_size ->
      malloc_ok (mem s) (next_block (mem s)) = true ->
      forall value, T_copy_throws value = false ->
        exists s', push_back (outside value) s = Ok tt s' /\
                   _capacity (self s') = 6)).
Proof.
  intros Hsz Hc Hadd c c'.
  pose proof (grow_amount_size_t c add Hc Hadd) as Hm.
  pose proof (wrap_add_lt c _ Hc Hm) as Hwrap. fold c' in Hwrap.
  pose proof (max_size_le Hsz) as Hms.
  assert (0 <= c') as Hc'0 by (unfold c', is_size_t in *; lia).
  assert (forall s', _grow add s = Ok tt s' ->
            _capacity (self s') = c' /\ c + add <= _capacity (self s'))
    as HOk.
  { intros s' Hrun. apply _grow_Ok_capacity in Hrun as [Hcap Hfit].
    fold c c' in Hcap, Hfit.
    assert (c' <= SIZE_MAX) by lia.
    rewrite wrap_small in Hcap by lia. split; [done|]. rewrite Hcap.
    unfold c'. lia. }
  split_and!.
  - split.
    + intros [s' Hthrow]. apply _grow_Throw_reason in Hthrow as [[_ Hover]|[? _]];
        [|done].
      fold c c' in Hover. destruct Hover as [?|Hover]; [lia|].
      destruct (decide (c' <= SIZE_MAX)); [|lia].
      rewrite wrap_small in Hover by lia. lia.
    + intros Hover. exists s. unfold _grow.
      rewrite (bind_step this _ s (self s) s) by done. cbv zeta.
      fold c c'. rewrite <- bool_decide_or, bool_decide_true; [done|].
      destruct (decide (c' <= SIZE_MAX)); [|lia].
      rewrite wrap_small by lia. lia.
  - done.
  - intros Hs Hadd1 Hfit Hok.
    destruct (_grow_Ok add s Hs Hsz Hadd1 Hfit Hok) as (s' & ? & _ & ? & _).
    eauto.
  - intros Hc4 Hsize.
    assert (forall value s',
              push_back value s = Ok tt s' -> _capacity (self s') = 6)
      as Hsix.
    { intros value s'. unfold push_back.
      rewrite (bind_step this _ s (self s) s) by done.
      rewrite bool_decide_true by (fold c; lia).
      intros (x & s1 & Hgrow & Hrest)%bind_Ok.
      cbn [when] in Hgrow. destruct x.
      apply _grow_Ok_capacity in Hgrow as [Hcap1 _].
      fold c in Hcap1. rewrite Hc4 in Hcap1.
      rewrite (bind_step this _ s1 (self s1) s1) in Hrest by done.
      apply bind_Ok in Hrest as ([] & s2 & Hw & Hset).
      apply placement_new_same_members in Hw as (_ & Hcap2 & _).
      injection Hset as <-. simpl. by rewrite Hcap2, Hcap1. }
    split; [exact Hsix|].
    intros Hs Hfit Hok value Hcopy.
    destruct (elements_consistent s Hs) as (buf & _ & _ & Helem).
    destruct (push_back_Ok (outside value) value s _ Hs Hsz Helem)
      as (s' & Hrun & _); [|done|done|].
    { intros _. split; [|done]. fold c. by rewrite Hc4. }
    exists s'. split; [done|]. by apply (Hsix (outside value)).
Qed.

(** *** Reachability *)

Lemma run_reachable cs : forall s s',
  reachable s -> Forall well_typed cs -> run cs s = Some s' -> reachable s'.
Proof.
  induction cs as [|c cs IH]; intros s s' Hs Hcs; simpl.
  - by intros [= <-].
  - apply Forall_cons in Hcs as [Hc Hcs].
    destruct (after c s) as [s1|] eqn:Hafter; [simpl|done].
    apply IH; [|done]. by eapply reachable_call.
Qed.

(** *** Hoare rules *)

Lemma triple_ret {A} (a : A) P E : triple P (ret a) (fun b s => b = a /\ P s) E.
Proof. by intros s Hs. Qed.

Lemma triple_throw {A} e P (Q : A -> state -> Prop) :
  triple P (throw e) Q P.
Proof. by intros s Hs. Qed.

Lemma triple_undefined {A} P (Q : A -> state -> Prop) E :
  triple P undefined Q E.
Proof. by intros s Hs. Qed.

Lemma triple_bind {A B} (m : M A) (k : A -> M B) P R Q E :
  triple P m R E -> (forall a, triple (R a) (k a) Q E) ->
  triple P (bind m k) Q E.
Proof.
  intros Hm Hk s Hs. specialize (Hm s Hs). unfold bind.
  destruct (m s) as [a s1|e s1|]; [|done|done]. by apply Hk.
Qed.

Lemma triple_post {A} (m : M A) P (Q Q' : A -> state -> Prop) E :
  triple P m Q' E -> (forall a s, Q' a s -> Q a s) -> triple P m Q E.
Proof.
  intros Hm HQ s Hs. specialize (Hm s Hs).
  destruct (m s); [by apply HQ|done|done].
Qed.

Lemma triple_false {A} (m : M A) Q E : triple (fun _ => False) m Q E.
Proof. by intros s Hs. Qed.

(** [this] hands the members to the rest of the body. *)
Lemma triple_this {A} (k : small_vector -> M A) x Q E :
  (forall v, (_data v, _capacity v, _size v) = x ->
             triple (has_members x) (k v) Q E) ->
  triple (has_members x) (bind this k) Q E.
Proof. intros Hk s Hs. by apply (Hk (self s)). Qed.

Lemma triple_assert b x E :
  triple (has_members x) (assert b)
    (fun _ s => b = true /\ has_members x s) E.
Proof. intros s Hs. by destruct b. Qed.

(** The primitives on buffers and on the heap leave the members alone and
    do not throw. *)
Lemma triple_same_members {A} (m : M A) x E :
  nothrow m -> (forall s a s', m s = Ok a s' -> members s' = members s) ->
  triple (has_members x) m (fun _ => has_members x) E.
Proof.
  intros Hnothrow Hsame s Hs. destruct (m s) as [a s'|e s'|] eqn:Hm.
  - unfold has_members. by rewrite (Hsame _ _ _ Hm).
  - by apply Hnothrow in Hm.
  - done.
Qed.

Lemma triple_read_range r n x E :
  triple (has_members x) (read_range r n) (fun _ => has_members x) E.
Proof.
  apply triple_same_members; [apply nothrow_read_range|].
  intros s a s'. unfold read_range. repeat case_match; naive_solver.
Qed.

Lemma triple_write_range r xs x E :
  triple (has_members x) (write_range r xs) (fun _ => has_members x) E.
Proof.
  apply triple_same_members; [apply nothrow_write_range|].
  intros s [] s' (Hd & Hc & Hn & _)%write_range_same_members.
  unfold members. by rewrite Hd, Hc, Hn.
Qed.

Lemma triple_placement_new r c x :
  triple (has_members x) (placement_new r c) (fun _ => has_members x)
    (has_members x).
Proof.
  intros s Hs. unfold placement_new. destruct (c s) as [[y|]|]; [|done|done].
  by apply triple_write_range.
Qed.

Lemma triple_uninitialized_construct_n r n c x :
  triple (has_members x) (uninitialized_construct_n r n c)
    (fun _ => has_members x) (has_members x).
Proof.
  intros s Hs. unfold uninitialized_construct_n.
  destruct (bool_decide (n <= 0)); [done|].
  destruct (c s) as [[y|]|]; [|done|done].
  by apply triple_write_range.
Qed.

Lemma triple_malloc bytes x E :
  triple (has_members x) (malloc bytes) (fun _ => has_members x) E.
Proof.
  apply triple_same_members; [apply nothrow_malloc|].
  intros s p s' (Hself & _)%malloc_inv. unfold members. by rewrite Hself.
Qed.

Lemma triple_free p x E :
  triple (has_members x) (free p) (fun _ => has_members x) E.
Proof.
  apply triple_same_members; [apply nothrow_free|].
  intros s a s'. unfold free. repeat case_match; naive_solver.
Qed.

Lemma triple_uninitialized_move_n src n dst x E :
  triple (has_members x) (uninitialized_move_n src n dst)
    (fun _ => has_members x) E.
Proof.
  eapply triple_bind; [apply triple_read_range|intros xs].
  apply triple_write_range.
Qed.

Lemma triple_when b m x E :
  triple (has_members x) m (fun _ => has_members x) E ->
  triple (has_members x) (when b m) (fun _ => has_members x) E.
Proof. destruct b; [done|]. by intros _ s Hs. Qed.

Lemma triple_set_data p d c n E :
  triple (has_members (d, c, n)) (set_data p)
    (fun _ => has_members (p, c, n)) E.
Proof. intros s [= Hd Hc Hn]. unfold has_members, members. simpl. congruence. Qed.

Lemma triple_set_capacity c' d c n E :
  triple (has_members (d, c, n)) (set_capacity c')
    (fun _ => has_members (d, c', n)) E.
Proof. intros s [= Hd Hc Hn]. unfold has_members, members. simpl. congruence. Qed.

Lemma triple_set_size n' d c n E :
  triple (has_members (d, c, n)) (set_size n')
    (fun _ => has_members (d, c, n')) E.
Proof. intros s [= Hd Hc Hn]. unfold has_members, members. simpl. congruence. Qed.

Lemma triple_conseq {A} (m : M A) (P P' : state -> Prop) Q Q' E E' :
  triple P m Q E ->
  (forall s, P' s -> P s) -> (forall a s, Q a s -> Q' a s) ->
  (forall s, E s -> E' s) ->
  triple P' m Q' E'.
Proof.
  intros Hm HP HQ HE s Hs. specialize (Hm s (HP s Hs)).
  destruct (m s); auto.
Qed.

Lemma triple_pre {A} (m : M A) (P P' : state -> Prop) Q E :
  triple P m Q E -> (forall s, P' s -> P s) -> triple P' m Q E.
Proof. intros Hm HP s Hs. by apply Hm, HP. Qed.

Lemma triple_exists {A} (m : M A) (phi : pointer * Z * Z -> Prop) Q E :
  (forall x, phi x -> triple (has_members x) m Q E) ->
  triple (fun s => exists x, has_members x s /\ phi x) m Q E.
Proof. intros Hm s (x & Hx & Hphi). by apply (Hm x Hphi). Qed.

Lemma triple_frame_ret {A} (a : A) x E :
  triple (has_members x) (ret a) (fun _ => has_members x) E.
Proof. by intros s Hs. Qed.

(** *** What the operations do to the members *)

Lemma has_members_ok x s : members_ok x -> has_members x s -> members_ok (members s).
Proof. by intros ? ->. Qed.

Lemma triple__grow add d c n :
  is_size_t c -> is_size_t add ->
  triple (has_members (d, c, n)) (_grow add)
    (fun _ s => exists x, has_members x s /\
       (x.1.1 <> nullptr /\ x.2 = n /\ c <= x.1.2 /\ c + add <= x.1.2 /\
        x.1.2 <= SIZE_MAX))
    (has_members (d, c, n)).
Proof.
  intros Hc Hadd. unfold _grow. apply triple_this. intros v [= <- <- <-].
  cbv zeta. set (m := Z.max add (_capacity v / 2)).
  pose proof (grow_amount_size_t _ _ Hc Hadd) as Hm. fold m in Hm.
  pose proof (wrap_add_lt _ _ Hc Hm) as Hwrap.
  rewrite <- bool_decide_or. case_bool_decide as Hcheck.
  { apply triple_throw. }
  eapply triple_bind; [apply triple_malloc|intros p].
  destruct (decide (p = nullptr)) as [->|Hp].
  { rewrite bool_decide_true by done.
    eapply triple_bind; [apply (triple_throw bad_alloc)|intros ?].
    apply triple_false. }
  rewrite bool_decide_false by done.
  eapply triple_bind; [apply triple_frame_ret|intros ?].
  eapply triple_bind; [apply triple_uninitialized_move_n|intros ?].
  eapply triple_bind; [apply triple_when, triple_free|intros ?].
  eapply triple_bind; [apply triple_set_data|intros ?].
  eapply triple_post; [apply triple_set_capacity|].
  intros ? s Hs. eexists. split; [exact Hs|]. simpl.
  assert (_capacity v + m <= SIZE_MAX) by lia.
  rewrite wrap_small by (unfold is_size_t in *; lia).
  unfold m, is_size_t in *. split_and!; try done; lia.
Qed.

(** The growth step of push_back, emplace_back and resize. *)
Lemma triple_when__grow (b : bool) add d c n (need : Z) :
  is_size_t c -> d <> nullptr ->
  (b = true -> is_size_t add /\ need <= c + add) ->
  (b = false -> need <= c) ->
  triple (has_members (d, c, n)) (when b (_grow add))
    (fun _ s => exists x, has_members x s /\
       (x.1.1 <> nullptr /\ x.2 = n /\ need <= x.1.2 /\ c <= x.1.2 /\
        x.1.2 <= SIZE_MAX))
    (has_members (d, c, n)).
Proof.
  intros Hc Hd Htrue Hfalse. destruct b; simpl.
  - destruct (Htrue eq_refl) as [Hadd Hneed].
    eapply triple_post; [by apply triple__grow|].
    intros ? s (x & Hx & ? & ? & ? & ? & ?). exists x.
    split_and!; try done; lia.
  - intros s Hs. exists (d, c, n). simpl. unfold is_size_t in *.
    specialize (Hfalse eq_refl). split_and!; try done; lia.
Qed.

Lemma keeps_members_ok_push_back value : keeps_members_ok (push_back value).
Proof.
  intros [[d c] n] (Hd & Hn & Hc). simpl in *. unfold push_back.
  apply triple_this. intros v [= <- <- <-].
  eapply triple_bind.
  { eapply triple_conseq;
      [eapply (triple_when__grow _ 1 _ _ _ (_size v + 1))|done|done|].
    - unfold is_size_t; lia.
    - done.
    - intros ?%bool_decide_eq_true. unfold is_size_t, SIZE_MAX. lia.
    - intros ?%bool_decide_eq_false. lia.
    - intros s. by apply has_members_ok. }
  intros ?. apply triple_exists. intros [[d' c'] n'] (Hd' & Hn' & Hroom & _ & Hc').
  simpl in *. subst n'. apply triple_this. intros v' [= Hv1 Hv2 Hv3].
  rewrite ?Hv1, ?Hv2, ?Hv3.
  eapply triple_bind.
  { eapply triple_conseq; [apply triple_placement_new|done|done|].
    intros s ->. unfold members_ok. simpl. split_and!; try done; lia. }
  intros ?.
  eapply triple_post; [apply triple_set_size|].
  intros ? s ->. unfold members_ok. simpl.
  rewrite wrap_small by lia. split_and!; try done; lia.
Qed.

Lemma keeps_members_ok_emplace_back value :
  keeps_members_ok (emplace_back value).
Proof.
  intros [[d c] n] (Hd & Hn & Hc). simpl in *. unfold emplace_back.
  apply triple_this. intros v [= <- <- <-].
  eapply triple_bind.
  { eapply triple_conseq;
      [eapply (triple_when__grow _ 1 _ _ _ (_size v + 1))|done|done|].
    - unfold is_size_t; lia.
    - done.
    - intros ?%bool_decide_eq_true. unfold is_size_t, SIZE_MAX. lia.
    - intros ?%bool_decide_eq_false. lia.
    - intros s. by apply has_members_ok. }
  intros ?. apply triple_exists. intros [[d' c'] n'] (Hd' & Hn' & Hroom & _ & Hc').
  simpl in *. subst n'. apply triple_this. intros v' [= Hv1 Hv2 Hv3].
  rewrite ?Hv1, ?Hv2, ?Hv3.
  eapply triple_bind.
  { eapply triple_conseq; [apply triple_placement_new|done|done|].
    intros s ->. unfold members_ok. simpl. split_and!; try done; lia. }
  intros ?.
  eapply triple_bind; [apply triple_set_size|intros ?].
  eapply triple_post; [apply triple_frame_ret|].
  intros ? s ->. unfold members_ok. simpl.
  rewrite wrap_small by lia. split_and!; try done; lia.
Qed.

Lemma keeps_members_ok_resize_with (c : constructor) newSize :
  is_size_t newSize ->
  keeps_members_ok
    (let* v := this in
     let* _ :=
       if bool_decide (newSize < _size v) then
         destroy_n (_data v, newSize) (_size v - newSize)
       else if bool_decide (newSize > _size v) then
         let* _ := when (bool_decide (newSize > _capacity v))
                     (_grow (newSize - _capacity v)) in
         let* v := this in
         uninitialized_construct_n (_data v, _size v) (newSize - _size v) c
       else ret tt in
     set_size newSize).
Proof.
  intros Hnew [[d c0] n] (Hd & Hn & Hc). simpl in *.
  apply triple_this. intros v [= <- <- <-].
  eapply (triple_bind _ _ _
    (fun _ s => exists x, has_members x s /\
       (x.1.1 <> nullptr /\ newSize <= x.1.2 /\ x.1.2 <= SIZE_MAX))).
  - case_bool_decide as Hless; [|case_bool_decide as Hmore].
    + eapply triple_post; [apply triple_write_range|].
      intros ? s Hs. eexists. split; [exact Hs|]. simpl. split_and!; [done|lia|lia].
    + eapply triple_bind.
      { eapply triple_conseq;
          [eapply (triple_when__grow _ (newSize - _capacity v) _ _ _ newSize)
          |done|done|].
        - unfold is_size_t; lia.
        - done.
        - intros ?%bool_decide_eq_true. unfold is_size_t in *. lia.
        - intros ?%bool_decide_eq_false. lia.
        - intros s. by apply has_members_ok. }
      intros ?. apply triple_exists.
      intros [[d' c'] n'] (Hd' & Hn' & Hroom & _ & Hc'). simpl in *.
      subst n'. apply triple_this. intros v' _.
      eapply triple_conseq;
        [apply triple_uninitialized_construct_n|done| |].
      * intros ? s Hs. eexists. split; [exact Hs|]. done.
      * intros s ->. unfold members_ok. simpl. split_and!; try done; lia.
    + intros s Hs. eexists. split; [exact Hs|]. simpl. split_and!; [done|lia|lia].
  - intros ?. apply triple_exists.
    intros [[d' c'] n'] (Hd' & Hroom & Hc'). simpl in *.
    eapply triple_post; [apply triple_set_size|].
    intros ? s ->. unfold members_ok, is_size_t in *. simpl.
    split_and!; try done; lia.
Qed.

Lemma keeps_members_ok_resize newSize :
  is_size_t newSize -> keeps_members_ok (resize newSize).
Proof.
  intros ?. by apply (keeps_members_ok_resize_with default_constructor).
Qed.

Lemma keeps_members_ok_resize_fill newSize value :
  is_size_t newSize -> keeps_members_ok (resize_fill newSize value).
Proof.
  intros ?.
  by apply (keeps_members_ok_resize_with (copy_constructor value)).
Qed.

Lemma keeps_members_ok_shrink_to_fit : keeps_members_ok shrink_to_fit.
Proof.
  intros [[d c] n] Hx. pose proof Hx as (Hd & Hn & Hc). simpl in Hd, Hn, Hc.
  unfold shrink_to_fit.
  apply triple_this. intros v [= <- <- <-].
  destruct (_ || _).
  { intros s Hs. by apply (has_members_ok _ _ Hx). }
  eapply (triple_bind _ _ _
    (fun p s => p <> nullptr /\ has_members (_data v, _capacity v, _size v) s)).
  - case_bool_decide.
    + eapply triple_bind; [apply triple_malloc|intros p].
      destruct (decide (p = nullptr)) as [->|Hp].
      * rewrite bool_decide_true by done.
        eapply triple_bind; [|intros ?; apply triple_false].
        intros s Hs. by apply (has_members_ok _ _ Hx).
      * rewrite bool_decide_false by done.
        eapply triple_bind; [apply triple_frame_ret|intros ?].
        eapply triple_post; [apply triple_ret|]. by intros ? s [-> ?].
    + eapply triple_post; [apply triple_ret|]. by intros ? s [-> ?].
  - intros p s [Hp Hs]. revert s Hs.
    change (triple (has_members (_data v, _capacity v, _size v))
      (let* _ := uninitialized_move_n (_data v) (_size v) p in
       let* _ := free (_data v) in
       let* _ := set_data p in set_capacity (_size v))
      (fun _ s => members_ok (members s)) (fun s => members_ok (members s))).
    eapply triple_bind; [apply triple_uninitialized_move_n|intros ?].
    eapply triple_bind; [apply triple_free|intros ?].
    eapply triple_bind; [apply triple_set_data|intros ?].
    eapply triple_post; [apply triple_set_capacity|].
    intros ? s ->. unfold members_ok. simpl. split_and!; try done; lia.
Qed.

Lemma keeps_members_ok_clear : is_size_t N -> keeps_members_ok clear.
Proof.
  intros HN [[d c] n] (Hd & Hn & Hc). simpl in *. unfold clear.
  apply triple_this. intros v [= <- <- <-].
  eapply triple_bind; [apply triple_write_range|intros ?].
  eapply triple_bind; [apply triple_when, triple_free|intros ?].
  eapply triple_bind; [apply triple_set_data|intros ?].
  eapply triple_bind; [apply triple_set_capacity|intros ?].
  eapply triple_post; [apply triple_set_size|].
  intros ? s ->. unfold members_ok, is_size_t in *. simpl.
  split_and!; try done; lia.
Qed.

Lemma keeps_members_ok_erase pos : keeps_members_ok (erase pos).
Proof.
  intros x Hx. unfold erase. apply triple_this. intros v _.
  eapply triple_bind; [apply triple_assert|intros ?].
  eapply triple_pre with (P := has_members x); [|by intros s [_ ?]].
  eapply triple_bind; [apply triple_write_range|intros ?].
  eapply triple_post; [apply triple_frame_ret|].
  intros ? s. by apply has_members_ok.
Qed.

Lemma keeps_members_ok_erase_range first last :
  keeps_members_ok (erase_range first last).
Proof.
  intros [[d c] n] Hx. pose proof Hx as (Hd & Hn & Hc). simpl in Hd, Hn, Hc.
  unfold erase_range.
  case_bool_decide as Hempty.
  { intros s Hs. by apply (has_members_ok _ _ Hx). }
  apply triple_this. intros v [= <- <- <-].
  eapply triple_bind; [apply triple_assert|intros ?].
  intros s [[Hfirst Hlast]%andb_prop Hs]. revert s Hs.
  apply bool_decide_eq_true in Hfirst, Hlast. unfold begin, end_ in *.
  change (triple (has_members (_data v, _capacity v, _size v))
    (let* it0 := move_range (_data v, last) (_data v, _size v)
                   (_data v, first) in
     let* _ := destroy it0 (_data v, _size v) in
     let* _ := set_size it0.2 in undefined)
    (fun (_ : option iterator) s => members_ok (members s))
    (fun s => members_ok (members s))).
  eapply (triple_bind _ _ _
    (fun it0 s => it0.2 = first + (_size v - last) /\
                  has_members (_data v, _capacity v, _size v) s)).
  - unfold move_range.
    eapply triple_bind; [apply triple_read_range|intros ?].
    eapply triple_bind; [apply triple_write_range|intros ?].
    eapply triple_post; [apply triple_ret|]. by intros ? s [-> ?].
  - intros it0 s [Hit0 Hs]. revert s Hs.
    change (triple (has_members (_data v, _capacity v, _size v))
      (let* _ := destroy it0 (_data v, _size v) in
       let* _ := set_size it0.2 in undefined)
      (fun (_ : option iterator) s => members_ok (members s))
      (fun s => members_ok (members s))).
    eapply triple_bind; [apply triple_write_range|intros ?].
    eapply triple_bind; [apply triple_set_size|intros ?].
    by intros s _.
Qed.

Lemma keeps_members_ok_at_ off : keeps_members_ok (at_ off).
Proof.
  intros x Hx. unfold at_. apply triple_this. intros v _.
  case_bool_decide; intros s Hs; by apply (has_members_ok x).
Qed.

Lemma keeps_members_ok_assert_ret (b : bool) (r : reference) :
  keeps_members_ok (let* v := this in let* _ := assert b in ret r).
Proof.
  intros x Hx. apply triple_this. intros v _.
  destruct b; intros s Hs; [|done]. by apply (has_members_ok x).
Qed.

Lemma keeps_members_ok_discard {A} (m : M A) :
  keeps_members_ok m -> keeps_members_ok (discard m).
Proof.
  intros Hm x Hx. unfold discard.
  eapply triple_bind; [apply (Hm x Hx)|intros ?]. by intros s Hs.
Qed.

Lemma keeps_members_ok_perform c :
  is_size_t N -> well_typed c -> keeps_members_ok (perform c).
Proof.
  intros HN Hc. destruct c; simpl in *.
  - apply keeps_members_ok_push_back.
  - apply keeps_members_ok_discard, keeps_members_ok_emplace_back.
  - by apply keeps_members_ok_resize.
  - by apply keeps_members_ok_resize_fill.
  - apply keeps_members_ok_shrink_to_fit.
  - by apply keeps_members_ok_clear.
  - apply keeps_members_ok_discard, keeps_members_ok_erase.
  - apply keeps_members_ok_discard, keeps_members_ok_erase_range.
  - apply keeps_members_ok_discard, keeps_members_ok_at_.
  - apply keeps_members_ok_discard. unfold front.
    intros x Hx. apply triple_this. intros v _.
    destruct (bool_decide _); intros s Hs; [|done]. by apply (has_members_ok x).
  - apply keeps_members_ok_discard. unfold back.
    intros x Hx. apply triple_this. intros v _.
    destruct (bool_decide _); intros s Hs; [|done]. by apply (has_members_ok x).
  - apply keeps_members_ok_discard. unfold operator_index.
    intros x Hx. apply triple_this. intros v _.
    destruct (bool_decide _); intros s Hs; [|done]. by apply (has_members_ok x).
Qed.

(** In every reachable state [_data] is not null and
    [0 <= _size <= _capacity <= SIZE_MAX]. *)
Lemma reachable_members_ok s :
  is_size_t N -> reachable s -> members_ok (members s).
Proof.
  intros HN. induction 1 as [ok|c s s' _ IH Hc Hafter].
  - unfold members_ok, is_size_t in *. simpl. split_and!; try done; lia.
  - pose proof (keeps_members_ok_perform c HN Hc (members s) IH s eq_refl)
      as Hstep.
    unfold after in Hafter.
    destruct (perform c s) as [a s1|e s1|]; by simplify_eq.
Qed.

Lemma reachable_size_le_capacity s :
  is_size_t N -> reachable s -> size (self s) <= capacity (self s).
Proof.
  intros HN Hs. destruct (reachable_members_ok s HN Hs) as (_ & ? & _).
  unfold size, capacity. simpl in *. lia.
Qed.

Lemma reachable_empty s : is_size_t N -> reachable s -> empty (self s) = 0.
Proof.
  intros HN Hs. destruct (reachable_members_ok s HN Hs) as (Hdata & _).
  unfold empty. by rewrite bool_decide_false.
Qed.


(** *** More on buffers and elements *)

Lemma buffer_at_with_size p n v h :
  buffer_at p (with_size n v) h = buffer_at p v h.
Proof. by destruct p. Qed.

Lemma buffer_at_with_capacity p c v h :
  buffer_at p (with_capacity c v) h = buffer_at p v h.
Proof. by destruct p. Qed.

Lemma buffer_at_with_data p d v h :
  buffer_at p (with_data d v) h = buffer_at p v h.
Proof. by destruct p. Qed.

Lemma elements_of_buffer v h buf :
  buffer_at (_data v) v h = Some buf ->
  0 <= _size v <= Z.of_nat (length buf) ->
  elements v h = Some (take (Z.to_nat (_size v)) buf).
Proof.
  intros Hbuf Hsize. unfold elements.
  destruct (decide (_size v = 0)) as [Hz|Hz].
  - by rewrite bool_decide_true, Hz by done.
  - rewrite bool_decide_false by done. rewrite Hbuf. simpl. unfold slice.
    rewrite bool_decide_true by lia. by rewrite drop_0.
Qed.

(** A readable range has [_size] slots, and [_size] is not negative. *)
Lemma elements_length v h l :
  elements v h = Some l ->
  0 <= _size v /\ length l = Z.to_nat (_size v).
Proof.
  unfold elements. destruct (decide (_size v = 0)) as [Hz|Hz].
  - rewrite bool_decide_true by done. intros [= <-]. rewrite Hz. done.
  - rewrite bool_decide_false by done.
    destruct (buffer_at _ _ _) as [buf|]; [simpl|done].
    unfold slice. destruct (decide (0 <= 0 /\ 0 <= _size v /\
      0 + _size v <= Z.of_nat (length buf))) as [Hin|Hout].
    + rewrite bool_decide_true by done. intros [= <-].
      rewrite drop_0, length_take. lia.
    + by rewrite bool_decide_false by done.
Qed.

Lemma consistent_transfer s s' buf' :
  consistent s ->
  _data (self s') = _data (self s) ->
  _capacity (self s') = _capacity (self s) ->
  length (_buffer (self s')) = length (_buffer (self s)) ->
  next_block (mem s') = next_block (mem s) ->
  0 <= _size (self s') <= _capacity (self s) ->
  buffer_of (_data (self s)) s' = Some buf' ->
  Z.of_nat (length buf') = _capacity (self s) ->
  consistent s'.
Proof.
  intros (_ & Hcap & Hbuf0 & Hdata) Hd Hc Hl Hnx Hsize Hbuf' Hlen'.
  unfold consistent. rewrite Hd, Hc, Hl, Hnx. split_and!; try done; try lia.
  destruct (_data (self s)) as [| |b]; [done|done|].
  destruct Hdata as (? & ? & _). unfold buffer_of in Hbuf'. simpl in Hbuf'.
  eauto.
Qed.

(** *** What the primitives do to the heap *)

Lemma read_range_inv r n s xs s' :
  read_range r n s = Ok xs s' -> s' = s.
Proof. unfold read_range. repeat case_match; naive_solver. Qed.

Lemma write_range_dom r xs s s' :
  write_range r xs s = Ok tt s' ->
  forall b, is_Some (blocks (mem s') !! b) <-> is_Some (blocks (mem s) !! b).
Proof.
  unfold write_range. destruct (bool_decide (xs = [])).
  { by intros [= <-]. }
  destruct (buffer_at _ _ _) as [buf|] eqn:Hbuf; [simpl|done].
  unfold splice. destruct (bool_decide _); [|done].
  destruct r as [[| |b0] off]; simpl in *; [done| |].
  - by intros [= <-].
  - intros [= <-] b. simpl. destruct (decide (b0 = b)) as [->|Hne].
    + rewrite lookup_insert_eq, Hbuf. split; eauto.
    + by rewrite lookup_insert_ne.
Qed.

Lemma free_inv p s s' :
  free p s = Ok tt s' ->
  p = nullptr /\ s' = s \/
  exists b, p = heap_block b /\ is_Some (blocks (mem s) !! b) /\
            self s' = self s /\ next_block (mem s') = next_block (mem s) /\
            malloc_ok (mem s') = malloc_ok (mem s) /\
            blocks (mem s') = delete b (blocks (mem s)).
Proof.
  unfold free. destruct p as [| |b]; [|done|].
  - intros [= <-]. by left.
  - case_bool_decide as Hlive; [|done]. intros [= <-]. right.
    exists b. by split_and!.
Qed.

Lemma free_heap_block b s buf :
  buffer_of (heap_block b) s = Some buf ->
  free (heap_block b) s
    = Ok tt (mk_state _ (self s)
               (with_blocks (delete b (blocks (mem s))) (mem s))).
Proof.
  unfold buffer_of, free. simpl. intros Hb.
  by rewrite bool_decide_true by (by rewrite Hb).
Qed.

(** *** operator== *)

Lemma equal_loop_decides (xs ys : list T) :
  length xs = length ys ->
  equal_loop (Some <$> xs) (Some <$> ys) = Some (bool_decide (xs = ys)).
Proof.
  revert ys. induction xs as [|x xs IH]; intros [|y ys] Hlen; try done.
  simpl. destruct (decide (x = y)) as [->|Hne].
  - rewrite IH by (simpl in Hlen; lia). f_equal.
    apply bool_decide_ext. split; [by intros ->|by intros [= ->]].
  - f_equal. symmetry. apply bool_decide_eq_false. by intros [= ? ?].
Qed.

(** X1: [operator==] on two containers whose ranges hold live elements
    decides equality of the two element sequences: it is true exactly
    when the sizes agree and the elements are pairwise equal.  Capacity and
    storage mode play no part. *)
Theorem operator_eq_decides_sequence_equality v other h (xs ys : list T) :
  elements v h = Some (Some <$> xs) ->
  elements other h = Some (Some <$> ys) ->
  operator_eq v other h = Some (bool_decide (xs = ys)).
Proof.
  intros Hv Hother. unfold operator_eq.
  destruct (elements_length _ _ _ Hv) as [Hv0 Hvlen].
  destruct (elements_length _ _ _ Hother) as [Ho0 Holen].
  rewrite length_fmap in Hvlen, Holen.
  destruct (decide (_size v = _size other)) as [Heq|Hne].
  - rewrite bool_decide_true by done. rewrite Hv, Hother. simpl.
    apply equal_loop_decides. congruence.
  - rewrite bool_decide_false by done. f_equal. symmetry.
    apply bool_decide_eq_false. intros ->. lia.
Qed.

(** *** More on the heap *)

Lemma write_range_blocks r xs s s' :
  write_range r xs s = Ok tt s' ->
  forall b, r.1 <> heap_block b ->
            blocks (mem s') !! b = blocks (mem s) !! b.
Proof.
  unfold write_range. destruct (bool_decide (xs = [])).
  { by intros [= <-]. }
  destruct (buffer_at _ _ _) as [buf|] eqn:Hbuf; [simpl|done].
  unfold splice. destruct (bool_decide _); [|done].
  destruct r as [[| |b0] off]; simpl in *; [done| |].
  - by intros [= <-].
  - intros [= <-] b Hne. simpl. apply lookup_insert_ne. congruence.
Qed.

Lemma consistent_N_range s : consistent s -> 0 <= N <= _capacity (self s).
Proof.
  intros (_ & _ & Hbuf0 & Hdata).
  destruct (_data (self s)); [done|lia|lia].
Qed.

(** *** clear *)

(** X3: [clear()] on a consistent container returns, without calling
    [malloc]; the container is then empty and in inline mode with capacity
    [N], and the heap block it held, if any, has been released. *)
Theorem clear_returns_to_inline_mode s :
  consistent s ->
  exists s',
    clear s = Ok tt s' /\ consistent s' /\
    members s' = (inline_buffer, N, 0) /\
    elements (self s') (mem s') = Some [] /\
    next_block (mem s') = next_block (mem s) /\
    (forall b, _data (self s) = heap_block b ->
               blocks (mem s') = delete b (blocks (mem s))) /\
    (_data (self s) = inline_buffer -> blocks (mem s') = blocks (mem s)).
Proof.
  intros Hs.
  destruct (elements_consistent s Hs) as (buf & Hbuf & Hlen & _).
  pose proof (consistent_N_range s Hs) as HN.
  pose proof Hs as (Hsize & Hcap & Hbuf0 & Hdata).
  unfold clear. rewrite (bind_step this _ s (self s) s) by done.
  destruct (write_range_Ok (_data (self s)) 0
              (replicate (Z.to_nat (_size (self s))) None) s buf Hbuf)
    as (s1 & Hw & (Hd1 & Hc1 & Hn1 & Hl1 & Hnx1 & Hmo1) & Hbuf1 & Hother1).
  { lia. }
  { rewrite length_replicate. lia. }
  unfold destroy_n. rewrite (bind_step _ _ _ _ _ Hw).
  pose proof (write_range_blocks _ _ _ _ Hw) as Hblocks1. simpl in Hblocks1.
  assert (exists s2,
    when (bool_decide (_capacity (self s) <> N)) (free (_data (self s))) s1
      = Ok tt s2 /\ self s2 = self s1 /\
    next_block (mem s2) = next_block (mem s1) /\
    (forall b, _data (self s) = heap_block b ->
               blocks (mem s2) = delete b (blocks (mem s))) /\
    (_data (self s) = inline_buffer -> blocks (mem s2) = blocks (mem s)))
    as (s2 & Hfree & Hself2 & Hnx2 & Hheap & Hinline).
  { destruct (_data (self s)) as [| |b] eqn:Hd; [done| |].
    - rewrite bool_decide_false by lia. exists s1. split_and!; try done.
      intros _. apply map_eq. intros b. by apply Hblocks1.
    - rewrite bool_decide_true by lia. cbn [when].
      rewrite (free_heap_block b s1 _ Hbuf1). eexists. split; [done|].
      simpl. split_and!; try done. intros b' [= <-].
      apply map_eq. intros b'. destruct (decide (b = b')) as [<-|Hne].
      + by rewrite !lookup_delete_eq.
      + rewrite !lookup_delete_ne by done. apply Hblocks1. congruence. }
  rewrite (bind_step _ _ _ _ _ Hfree).
  unfold set_data, set_capacity, set_size, modify, bind. eexists.
  split; [done|]. simpl. split_and!; try done.
  - unfold consistent. simpl. rewrite Hself2, Hl1. split_and!; try done; lia.
  - congruence.
Qed.

Lemma bind_assoc {A B C} (m : M A) (k : A -> M B) (k' : B -> M C) s :
  bind (bind m k) k' s = bind m (fun a => bind (k a) k') s.
Proof. unfold bind. by destruct (m s). Qed.

(** *** Writing slots and setting the size *)

Lemma write_set_size_Ok s off ys n' buf :
  consistent s -> buffer_of (_data (self s)) s = Some buf ->
  0 <= off -> off + Z.of_nat (length ys) <= _capacity (self s) ->
  0 <= n' <= _capacity (self s) ->
  exists s',
    (let* _ := write_range (_data (self s), off) ys in set_size n') s
      = Ok tt s' /\
    consistent s' /\
    members s' = (_data (self s), _capacity (self s), n') /\
    next_block (mem s') = next_block (mem s) /\
    malloc_ok (mem s') = malloc_ok (mem s) /\
    buffer_of (_data (self s)) s'
      = Some (take (Z.to_nat off) buf ++ ys
                ++ drop (Z.to_nat off + length ys) buf) /\
    elements (self s') (mem s')
      = Some (take (Z.to_nat n')
                (take (Z.to_nat off) buf ++ ys
                   ++ drop (Z.to_nat off + length ys) buf)) /\
    forall b, is_Some (blocks (mem s') !! b) <-> is_Some (blocks (mem s) !! b).
Proof.
  intros Hs Hbuf Hoff Hfit Hn'.
  destruct (consistent_buffer s Hs) as (buf0 & Hbuf0 & Hlen).
  rewrite Hbuf in Hbuf0. injection Hbuf0 as <-.
  destruct (write_range_Ok (_data (self s)) off ys s buf Hbuf)
    as (s1 & Hw & (Hd1 & Hc1 & Hn1 & Hl1 & Hnx1 & Hmo1) & Hbuf1 & _);
    [lia|lia|].
  rewrite (bind_step _ _ _ _ _ Hw). unfold set_size, modify.
  eexists. split; [done|].
  match type of Hbuf1 with _ = Some ?l => set (buf1 := l) in * end.
  assert (Z.of_nat (length buf1) = _capacity (self s)) as Hlen1.
  { subst buf1. rewrite !length_app, length_take, length_drop. lia. }
  assert (buffer_of (_data (self s))
            (mk_state _ (with_size n' (self s1)) (mem s1)) = Some buf1)
    as Hbuf'.
  { unfold buffer_of in *. simpl. by rewrite buffer_at_with_size. }
  split_and!; simpl.
  - apply (consistent_transfer s _ buf1); simpl; try done; congruence.
  - unfold members. simpl. congruence.
  - done.
  - done.
  - done.
  - rewrite <- Hd1 in Hbuf'. unfold buffer_of in Hbuf'. simpl in Hbuf'.
    rewrite (elements_of_buffer _ _ buf1); simpl; [done|by rewrite Hd1|lia].
  - by apply (write_range_dom _ _ _ _ Hw).
Qed.

(** *** resize *)

(** X4: [resize(newSize)] with [newSize < size()] on a consistent
    container, in either overload: it returns without calling [malloc],
    keeps [data()] and [capacity()], and the range becomes the first
    [newSize] elements.  In the buffer exactly the slots
    [newSize .. size()) are destroyed. *)
Theorem resize_to_smaller_size s newSize value xs :
  consistent s -> elements (self s) (mem s) = Some xs ->
  0 <= newSize < _size (self s) ->
  exists s' buf,
    resize newSize s = Ok tt s' /\
    resize_fill newSize value s = Ok tt s' /\
    consistent s' /\
    members s' = (_data (self s), _capacity (self s), newSize) /\
    next_block (mem s') = next_block (mem s) /\
    elements (self s') (mem s') = Some (take (Z.to_nat newSize) xs) /\
    buffer_of (_data (self s)) s = Some buf /\
    buffer_of (_data (self s)) s'
      = Some (take (Z.to_nat newSize) buf
                ++ replicate (Z.to_nat (_size (self s) - newSize)) None
                ++ drop (Z.to_nat (_size (self s))) buf).
Proof.
  intros Hs Helem Hnew.
  destruct (elements_consistent s Hs) as (buf & Hbuf & Hlen & Helem').
  rewrite Helem in Helem'. injection Helem' as ->.
  pose proof Hs as (Hsize & _).
  destruct (write_set_size_Ok s newSize
              (replicate (Z.to_nat (_size (self s) - newSize)) None)
              newSize buf Hs Hbuf)
    as (s' & Hrun & Hs' & Hmem & Hnx & _ & Hbuf' & Helem' & _).
  { lia. }
  { rewrite length_replicate. lia. }
  { lia. }
  rewrite length_replicate in Hbuf', Helem'.
  replace (Z.to_nat newSize + Z.to_nat (_size (self s) - newSize))%nat
    with (Z.to_nat (_size (self s))) in Hbuf', Helem' by lia.
  exists s', buf. split_and!; try done.
  - unfold resize. rewrite (bind_step this _ s (self s) s) by done.
    rewrite bool_decide_true by lia. exact Hrun.
  - unfold resize_fill. rewrite (bind_step this _ s (self s) s) by done.
    rewrite bool_decide_true by lia. exact Hrun.
  - rewrite Helem'. f_equal.
    rewrite take_app_le by (rewrite length_take; lia).
    rewrite !take_take. f_equal. lia.
Qed.

Lemma bind_cong {A B} (m m' : M A) (k : A -> M B) s :
  m s = m' s -> bind m k s = bind m' k s.
Proof. unfold bind. by intros ->. Qed.

Lemma resize_with_grows (c : constructor) x s newSize xs :
  consistent s -> 1 <= sizeof_T ->
  elements (self s) (mem s) = Some xs ->
  _size (self s) < newSize ->
  (newSize > _capacity (self s) ->
     _capacity (self s)
       + Z.max (newSize - _capacity (self s)) (_capacity (self s) / 2)
       <= max_size /\
     malloc_ok (mem s) (next_block (mem s)) = true) ->
  (forall s1,
     when (bool_decide (newSize > _capacity (self s)))
       (_grow (newSize - _capacity (self s))) s = Ok tt s1 ->
     c s1 = Some (Some x)) ->
  exists s',
    (let* v := this in
     let* _ :=
       if bool_decide (newSize < _size v) then
         destroy_n (_data v, newSize) (_size v - newSize)
       else if bool_decide (newSize > _size v) then
         let* _ := when (bool_decide (newSize > _capacity v))
                     (_grow (newSize - _capacity v)) in
         let* v := this in
         uninitialized_construct_n (_data v, _size v) (newSize - _size v) c
       else ret tt in
     set_size newSize) s = Ok tt s' /\
    consistent s' /\ _size (self s') = newSize /\
    newSize <= _capacity (self s') /\
    elements (self s') (mem s')
      = Some (xs ++ replicate (Z.to_nat (newSize - _size (self s))) (Some x)).
Proof.
  intros Hs Hsz Helem Hnew Hgrow Hc.
  rewrite (bind_step this _ s (self s) s) by done.
  rewrite bool_decide_false, bool_decide_true by lia.
  assert (exists s1,
    when (bool_decide (newSize > _capacity (self s)))
      (_grow (newSize - _capacity (self s))) s = Ok tt s1 /\
    consistent s1 /\ _size (self s1) = _size (self s) /\
    newSize <= _capacity (self s1) /\
    elements (self s1) (mem s1) = Some xs)
    as (s1 & Hwhen & Hs1 & Hsize1 & Hroom & Helem1).
  { destruct (decide (newSize > _capacity (self s))) as [Hmore|Hfits].
    - rewrite bool_decide_true by done.
      destruct (Hgrow Hmore) as [Hmax Hok].
      destruct (_grow_Ok (newSize - _capacity (self s)) s Hs Hsz
                  ltac:(lia) Hmax Hok)
        as (s1 & ? & ? & Hcap1 & ? & Helem1 & ?).
      exists s1. split_and!; try done; [lia|congruence].
    - rewrite bool_decide_false by done. exists s.
      split_and!; try done. }
  specialize (Hc s1 Hwhen).
  rewrite bind_assoc, (bind_step _ _ _ _ _ Hwhen).
  rewrite bind_assoc, (bind_step this _ s1 (self s1) s1) by done.
  rewrite (bind_cong _
             (write_range (_data (self s1), _size (self s1))
                (replicate (Z.to_nat (newSize - _size (self s1))) (Some x)))).
  2:{ unfold uninitialized_construct_n.
      rewrite bool_decide_false by lia. by rewrite Hc. }
  destruct (elements_consistent s1 Hs1) as (buf & Hbuf & Hlen & Helem1').
  rewrite Helem1 in Helem1'. injection Helem1' as ->.
  pose proof Hs1 as (Hsize & _).
  destruct (write_set_size_Ok s1 (_size (self s1))
              (replicate (Z.to_nat (newSize - _size (self s1))) (Some x))
              newSize buf Hs1 Hbuf)
    as (s' & Hrun & Hs' & Hmem & _ & _ & _ & Helem' & _).
  { lia. }
  { rewrite length_replicate. lia. }
  { lia. }
  exists s'. injection Hmem as _ Hcap' Hsize'.
  split_and!; try done; [lia|].
  rewrite Helem', Hsize1. f_equal. rewrite app_assoc.
  apply take_app_length'.
  rewrite length_app, length_take, length_replicate. lia.
Qed.

(** X5: [resize(newSize)] with [newSize > size()] on a consistent
    container, when growth is not needed, or the grown capacity fits and
    [malloc] finds memory.  The first overload returns when [T()] does not
    throw; the second returns when, once the growth step is over, the
    reference still designates a live object (as a reference to an object
    outside the container's buffers does) whose copy does not throw.  The
    old elements are kept, followed by [newSize - size()] copies of [T()]
    (first overload) or of that object (second overload), and
    [capacity() >= newSize]. *)
Theorem resize_to_larger_size s newSize xs :
  consistent s -> 1 <= sizeof_T ->
  elements (self s) (mem s) = Some xs ->
  _size (self s) < newSize ->
  (newSize > _capacity (self s) ->
     _capacity (self s)
       + Z.max (newSize - _capacity (self s)) (_capacity (self s) / 2)
       <= max_size /\
     malloc_ok (mem s) (next_block (mem s)) = true) ->
  (T_default_throws = false ->
   exists s',
     resize newSize s = Ok tt s' /\ consistent s' /\
     _size (self s') = newSize /\ newSize <= _capacity (self s') /\
     elements (self s') (mem s')
       = Some (xs ++ replicate (Z.to_nat (newSize - _size (self s)))
                       (Some T_value_init))) /\
  (forall r value,
     (forall s1,
        when (bool_decide (newSize > _capacity (self s)))
          (_grow (newSize - _capacity (self s))) s = Ok tt s1 ->
        referent r s1 = Some value) ->
     T_copy_throws value = false ->
     exists s',
       resize_fill newSize r s = Ok tt s' /\ consistent s' /\
       _size (self s') = newSize /\ newSize <= _capacity (self s') /\
       elements (self s') (mem s')
         = Some (xs ++ replicate (Z.to_nat (newSize - _size (self s)))
                         (Some value))).
Proof.
  intros Hs Hsz Helem Hnew Hgrow. split.
  - intros Hdefault.
    apply (resize_with_grows default_constructor); try done.
    intros s1 _. unfold default_constructor. by rewrite Hdefault.
  - intros r value Hr Hcopy.
    apply (resize_with_grows (copy_constructor r)); try done.
    intros s1 Hs1. unfold copy_constructor.
    by rewrite (Hr s1 Hs1), Hcopy.
Qed.

(** *** shrink_to_fit *)

Lemma shrink_tail_Ok s1 b p buf dbuf n :
  _data (self s1) = heap_block b -> _size (self s1) = n ->
  buffer_of (heap_block b) s1 = Some buf ->
  buffer_of p s1 = Some dbuf -> p <> heap_block b ->
  0 <= n <= Z.of_nat (length buf) -> Z.of_nat (length dbuf) = n ->
  exists s',
    (let* _ := uninitialized_move_n (heap_block b) n p in
     let* _ := free (heap_block b) in
     let* _ := set_data p in
     set_capacity n) s1 = Ok tt s' /\
    members s' = (p, n, n) /\
    length (_buffer (self s')) = length (_buffer (self s1)) /\
    next_block (mem s') = next_block (mem s1) /\
    malloc_ok (mem s') = malloc_ok (mem s1) /\
    buffer_of p s' = Some (take (Z.to_nat n) buf) /\
    blocks (mem s') !! b = None.
Proof.
  intros Hd Hn Hsrc Hdst Hne Hfit Hdlen.
  destruct (uninitialized_move_n_Ok (heap_block b) n p s1 buf dbuf
              Hsrc Hdst Hfit ltac:(lia))
    as (s2 & Hmove & (Hd2 & Hc2 & Hn2 & Hl2 & Hnx2 & Hmo2) & Hnew2 & Hother2).
  rewrite (bind_step _ _ _ _ _ Hmove).
  rewrite (bind_step _ _ _ _ _ (free_heap_block b s2 buf
             ltac:(rewrite Hother2 by done; exact Hsrc))).
  unfold set_data, set_capacity, modify, bind. eexists. split; [done|].
  rewrite drop_ge, app_nil_r in Hnew2 by lia.
  simpl. split_and!; try done.
  - unfold members. simpl. congruence.
  - unfold buffer_of in *. simpl.
    rewrite buffer_at_with_capacity, buffer_at_with_data.
    destruct p as [| |b']; simpl in *; [done|done|].
    rewrite lookup_delete_ne by congruence. done.
  - apply lookup_delete_eq.
Qed.

(** X7: [shrink_to_fit()] on a consistent container in heap mode with
    [N <= size() < capacity()].  It returns (given memory for the new block
    when [size() > N]); afterwards [capacity() == size()], the elements are
    the same, the old block is released, and the elements live in a fresh
    block when [size() > N] and in the inline buffer when [size() == N]. *)
Theorem shrink_to_fit_fits_the_capacity s xs :
  consistent s -> 1 <= sizeof_T ->
  elements (self s) (mem s) = Some xs ->
  _capacity (self s) <> N ->
  N <= _size (self s) < _capacity (self s) ->
  _size (self s) <= max_size ->
  (_size (self s) > N -> malloc_ok (mem s) (next_block (mem s)) = true) ->
  exists s',
    shrink_to_fit s = Ok tt s' /\ consistent s' /\
    _size (self s') = _size (self s) /\
    _capacity (self s') = _size (self s) /\
    elements (self s') (mem s') = Some xs /\
    _data (self s')
      = (if bool_decide (_size (self s) > N)
         then heap_block (next_block (mem s)) else inline_buffer) /\
    forall b, _data (self s) = heap_block b -> blocks (mem s') !! b = None.
Proof.
  intros Hs Hsz Helem Hheap Hsize Hmax Hok.
  destruct (elements_consistent s Hs) as (buf & Hbuf & Hlen & Helem').
  rewrite Helem in Helem'. injection Helem' as ->.
  pose proof Hs as (Hsize0 & Hcap & Hbuf0 & Hdata).
  pose proof (max_size_le Hsz) as Hms.
  destruct (_data (self s)) as [| |b] eqn:Hd; [done|done|].
  destruct Hdata as (HN & Hb & _).
  set (n := _size (self s)) in *.
  unfold shrink_to_fit. rewrite (bind_step this _ s (self s) s) by done.
  rewrite !bool_decide_false by lia. cbn [orb]. fold n. rewrite Hd.
  destruct (decide (n > N)) as [Hmore|Hequal].
  - rewrite !bool_decide_true by done.
    destruct (malloc_Ok (wrap (n * sizeof_T)) s (Hok Hmore))
      as (s1 & Hm & Hself1 & Hnext1 & Hok1 & Hnew1 & Hother1).
    rewrite wrap_small, Z.div_mul in Hnew1 by (try apply max_size_mul; lia).
    set (nb := next_block (mem s)) in *.
    rewrite !bind_assoc, (bind_step _ _ _ _ _ Hm).
    rewrite bool_decide_false by done.
    rewrite bind_assoc, (bind_step (when false _) _ s1 tt s1) by done.
    rewrite (bind_step (ret _) _ s1 (heap_block nb) s1) by done.
    destruct (shrink_tail_Ok s1 b (heap_block nb) buf
                (replicate (Z.to_nat n) None) n)
      as (s' & Hrun & Hmem & Hl & Hnx & Hmo & Hbuf' & Hgone).
    { by rewrite Hself1. }
    { by rewrite Hself1. }
    { rewrite Hother1 by (intros [= ->]; lia). done. }
    { done. }
    { intros [= ->]. lia. }
    { lia. }
    { rewrite length_replicate. lia. }
    exists s'. injection Hmem as Hd' Hc' Hn'.
    unfold buffer_of in Hbuf'. simpl in Hbuf'.
    split_and!; try done.
    + unfold consistent. rewrite Hd', Hc', Hn', Hl, Hself1, Hnx, Hnext1.
      split_and!; try lia. eexists. split; [exact Hbuf'|].
      rewrite length_take. lia.
    + rewrite (elements_of_buffer _ _ (take (Z.to_nat n) buf)).
      * rewrite Hn', take_take. f_equal. f_equal. lia.
      * by rewrite Hd'.
      * rewrite Hn', length_take. lia.
    + intros b' [= <-]. done.
  - rewrite !bool_decide_false by done.
    rewrite (bind_step (ret _) _ s inline_buffer s) by done.
    destruct (shrink_tail_Ok s b inline_buffer buf (_buffer (self s)) n)
      as (s' & Hrun & Hmem & Hl & Hnx & Hmo & Hbuf' & Hgone);
      try done; try lia.
    exists s'. injection Hmem as Hd' Hc' Hn'.
    unfold buffer_of in Hbuf'. simpl in Hbuf'.
    split_and!; try done.
    + unfold consistent. rewrite Hd', Hc', Hn', Hl.
      split_and!; try lia.
    + rewrite (elements_of_buffer _ _ (take (Z.to_nat n) buf)).
      * rewrite Hn', take_take. f_equal. f_equal. lia.
      * rewrite Hd'. simpl. congruence.
      * rewrite Hn', length_take. lia.
    + intros b' [= <-]. done.
Qed.

(** X8: [shrink_to_fit()] is idempotent: from any state, once it has
    returned, a second call returns at once with the state unchanged. *)
Theorem shrink_to_fit_twice s s' :
  shrink_to_fit s = Ok tt s' -> shrink_to_fit s' = Ok tt s'.
Proof.
  intros Hrun.
  assert (_capacity (self s') = N \/ _size (self s') = _capacity (self s'))
    as Hdone.
  { assert (triple (has_members (members s)) shrink_to_fit
              (fun _ s' => _capacity (self s') = N
                           \/ _size (self s') = _capacity (self s'))
              (fun _ => True)) as Htriple.
    { destruct (members s) as [[d c] n] eqn:Hmem.
      unfold shrink_to_fit. apply triple_this. intros v [= <- <- <-].
      rewrite <- bool_decide_or. case_bool_decide as Hcond.
      { intros s0 [= _ Hc Hn]. simpl. rewrite Hc, Hn. exact Hcond. }
      eapply (triple_bind _ _ _
        (fun _ => has_members (_data v, _capacity v, _size v))).
      - case_bool_decide.
        + eapply triple_bind; [apply triple_malloc|intros p].
          eapply triple_bind; [|intros ?; apply triple_frame_ret].
          destruct (bool_decide (p = nullptr)); by intros s0 Hs0.
        + apply triple_frame_ret.
      - intros p.
        eapply triple_bind; [apply triple_uninitialized_move_n|intros ?].
        eapply triple_bind; [apply triple_free|intros ?].
        eapply triple_bind; [apply triple_set_data|intros ?].
        eapply triple_post; [apply triple_set_capacity|].
        intros ? s0 [= _ Hc Hn]. right. congruence. }
    specialize (Htriple s eq_refl). by rewrite Hrun in Htriple. }
  unfold shrink_to_fit. rewrite (bind_step this _ s' (self s') s') by done.
  rewrite <- bool_decide_or. by rewrite bool_decide_true.
Qed.

(** *** Growth and the heap *)

Lemma malloc_inv_next bytes s p s1 :
  malloc bytes s = Ok p s1 ->
  next_block (mem s1) = S (next_block (mem s)) /\
  malloc_ok (mem s1) = malloc_ok (mem s).
Proof. unfold malloc. destruct (malloc_ok _ _); by intros [= <- <-]. Qed.

Lemma write_range_self b off xs s s' :
  write_range (heap_block b, off) xs s = Ok tt s' -> self s' = self s.
Proof.
  unfold write_range. destruct (bool_decide (xs = [])).
  { by intros [= <-]. }
  destruct (buffer_at _ _ _) as [buf|]; [simpl|done].
  unfold splice. destruct (bool_decide _); [|done]. by intros [= <-].
Qed.

(** The steps of a [_grow] that returned. *)
Lemma _grow_Ok_inv add s s' :
  _grow add s = Ok tt s' ->
  exists s1 s2 s3 xs,
    malloc (wrap (wrap (_capacity (self s)
                          + Z.max add (_capacity (self s) / 2)) * sizeof_T)) s
      = Ok (heap_block (next_block (mem s))) s1 /\
    write_range (heap_block (next_block (mem s)), 0) xs s1 = Ok tt s2 /\
    when (bool_decide (_capacity (self s) <> N)) (free (_data (self s))) s2
      = Ok tt s3 /\
    s' = mk_state _
           (with_capacity
              (wrap (_capacity (self s) + Z.max add (_capacity (self s) / 2)))
              (with_data (heap_block (next_block (mem s))) (self s3)))
           (mem s3).
Proof.
  unfold _grow. rewrite (bind_step this _ s (self s) s) by done. cbv zeta.
  destruct (_ || _); [done|].
  intros (p & s1 & Hm & Hrest)%bind_Ok.
  pose proof (malloc_inv _ _ _ _ Hm) as (_ & Hp).
  apply bind_Ok in Hrest as ([] & s1' & Hnull & Hrest).
  destruct Hp as [(-> & _)|(-> & _)].
  { by rewrite bool_decide_true in Hnull by done. }
  rewrite bool_decide_false in Hnull by done. injection Hnull as <-.
  apply bind_Ok in Hrest as ([] & s2 & Hmove & Hrest).
  apply bind_Ok in Hmove as (xs & s1' & Hread & Hwrite).
  apply read_range_inv in Hread as ->.
  apply bind_Ok in Hrest as ([] & s3 & Hfree & Hrest).
  apply bind_Ok in Hrest as ([] & s4 & Hdata & Hcap).
  injection Hdata as <-. injection Hcap as <-.
  by exists s1, s2, s3, xs.
Qed.

Lemma _grow_Ok_heap add s s' :
  consistent s -> _grow add s = Ok tt s' ->
  _data (self s') = heap_block (next_block (mem s)) /\
  next_block (mem s') = S (next_block (mem s)) /\
  _buffer (self s') = _buffer (self s) /\
  _size (self s') = _size (self s) /\
  forall b, b <> next_block (mem s) ->
    blocks (mem s') !! b
      = if decide (_data (self s) = heap_block b) then None
        else blocks (mem s) !! b.
Proof.
  intros Hs Hrun.
  apply _grow_Ok_inv in Hrun as (s1 & s2 & s3 & xs & Hm & Hw & Hfree & ->).
  pose proof (malloc_inv _ _ _ _ Hm) as (Hself1 & Hp).
  pose proof (malloc_inv_next _ _ _ _ Hm) as (Hnx1 & _).
  destruct Hp as [(? & _)|(_ & _ & Hblocks1)]; [done|].
  pose proof (write_range_self _ _ _ _ _ Hw) as Hself2.
  pose proof (write_range_same_members _ _ _ _ Hw) as (_ & _ & _ & _ & Hnx2 & _).
  pose proof (write_range_blocks _ _ _ _ Hw) as Hblocks2. simpl in Hblocks2.
  destruct Hs as (_ & _ & _ & Hdata). simpl.
  destruct (_data (self s)) as [| |b0] eqn:Hd; [done| |].
  - rewrite bool_decide_false in Hfree by lia. injection Hfree as <-.
    rewrite Hself2, Hself1, Hnx2, Hnx1. split_and!; try done.
    intros b Hb. rewrite decide_False by done.
    rewrite Hblocks2 by congruence. rewrite Hblocks1.
    by rewrite lookup_insert_ne.
  - rewrite bool_decide_true in Hfree by lia. cbn [when] in Hfree.
    apply free_inv in Hfree as [[? _]|(b1 & [= <-] & _ & Hself3 & Hnx3 & _ & Hblocks3)];
      [done|].
    rewrite Hself3, Hself2, Hself1, Hnx3, Hnx2, Hnx1. split_and!; try done.
    intros b Hb. rewrite Hblocks3.
    destruct (decide (heap_block b0 = heap_block b)) as [[= <-]|Hne].
    + apply lookup_delete_eq.
    + rewrite lookup_delete_ne by congruence.
      rewrite Hblocks2 by congruence. rewrite Hblocks1.
      by rewrite lookup_insert_ne.
Qed.

Lemma _grow_sole_owner add s s' :
  consistent s -> sole_owner s -> _grow add s = Ok tt s' -> sole_owner s'.
Proof.
  intros Hs Hsole Hrun.
  destruct (_grow_Ok_heap add s s' Hs Hrun) as (Hd' & _ & _ & _ & Hblocks).
  intros b Hlive. rewrite Hd'.
  destruct (decide (b = next_block (mem s))) as [->|Hne]; [done|].
  rewrite Hblocks in Hlive by done.
  destruct (decide (_data (self s) = heap_block b)) as [Hd|Hd].
  - by destruct Hlive.
  - by apply Hsole in Hlive.
Qed.

(** X9: [_grow(add)] on a consistent container, when the new capacity
    fits and [malloc] finds memory: the elements and [size()] are kept, the
    elements now live in the block [malloc] returned, the block held
    before, if any, has been released, and the inline slots are left as
    they were. *)
Theorem growth_moves_the_elements s add :
  consistent s -> 1 <= sizeof_T -> 1 <= add ->
  _capacity (self s) + Z.max add (_capacity (self s) / 2) <= max_size ->
  malloc_ok (mem s) (next_block (mem s)) = true ->
  exists s',
    _grow add s = Ok tt s' /\ consistent s' /\
    _size (self s') = _size (self s) /\
    elements (self s') (mem s') = elements (self s) (mem s) /\
    _data (self s') = heap_block (next_block (mem s)) /\
    _buffer (self s') = _buffer (self s) /\
    (forall b, _data (self s) = heap_block b ->
               blocks (mem s') !! b = None) /\
    (sole_owner s -> sole_owner s').
Proof.
  intros Hs Hsz Hadd Hmax Hok.
  destruct (_grow_Ok add s Hs Hsz Hadd Hmax Hok)
    as (s' & Hrun & Hs' & _ & Hsize & Helem & _).
  destruct (_grow_Ok_heap add s s' Hs Hrun) as (Hd' & _ & Hbuf & _ & Hblocks).
  exists s'. split_and!; try done.
  - intros b Hd. rewrite Hblocks.
    + by rewrite decide_True.
    + destruct Hs as (_ & _ & _ & Hdata). rewrite Hd in Hdata. lia.
  - intros Hsole. by apply (_grow_sole_owner add s).
Qed.

(** *** push_back, step by step *)

(** X10: [push_back] with spare capacity ([size() < capacity()]) on a
    consistent container, the reference designating a live object.  It
    does not reallocate: [malloc] is not called, [data()] and [capacity()]
    are unchanged, and the copy of the object is appended to the
    elements.  It fails only when the copy constructor throws, and then
    the state is the one before the call. *)
Theorem push_back_with_spare_capacity s r value xs :
  consistent s -> elements (self s) (mem s) = Some xs ->
  _size (self s) < _capacity (self s) ->
  referent r s = Some value ->
  (T_copy_throws value = true ->
   push_back r s = Throw constructor_exception s) /\
  (T_copy_throws value = false ->
   exists s',
     push_back r s = Ok tt s' /\ consistent s' /\
     members s' = (_data (self s), _capacity (self s), _size (self s) + 1) /\
     next_block (mem s') = next_block (mem s) /\
     elements (self s') (mem s') = Some (xs ++ [Some value])).
Proof.
  intros Hs Helem Hroom Hr.
  assert (push_back r s
          = (let* _ := placement_new (_data (self s), _size (self s))
                         (copy_constructor r) in
             set_size (wrap (_size (self s) + 1))) s) as Hpush.
  { unfold push_back. rewrite (bind_step this _ s (self s) s) by done.
    rewrite bool_decide_false by lia.
    rewrite (bind_step (when false _) _ s tt s) by done.
    by rewrite (bind_step this _ s (self s) s) by done. }
  rewrite Hpush. split; intros Hcopy.
  { unfold bind, placement_new, copy_constructor. by rewrite Hr, Hcopy. }
  rewrite (bind_cong _
             (write_range (_data (self s), _size (self s)) [Some value]))
    by (unfold placement_new, copy_constructor; by rewrite Hr, Hcopy).
  destruct (elements_consistent s Hs) as (buf & Hbuf & Hlen & Helem').
  rewrite Helem in Helem'. injection Helem' as ->.
  pose proof Hs as (Hsize & Hcap & _).
  destruct (write_set_size_Ok s (_size (self s)) [Some value]
              (_size (self s) + 1) buf Hs Hbuf)
    as (s' & Hrun & Hs' & Hmem & Hnx & _ & _ & Helem' & _).
  { lia. }
  { simpl. lia. }
  { lia. }
  exists s'. split_and!; try done.
  - rewrite wrap_small by lia. exact Hrun.
  - rewrite Helem'. f_equal. rewrite app_assoc. apply take_app_length'.
    rewrite length_app, length_take. simpl. lia.
Qed.








(** *** back, front *)

(** X14: the element just pushed is the last one.  [push_back] on a
    consistent container, for a reference that designates a live object
    once the growth step is over (as a reference to an object outside the
    container's buffers does) and whose copy does not throw, returns when
    growth is not needed or can be done; after it [back()],
    [at(size() - 1)] and [operator[](size() - 1)] all return the reference
    to the slot that holds the copy of that object. *)
Theorem push_back_then_back s r value xs :
  consistent s -> 1 <= sizeof_T ->
  elements (self s) (mem s) = Some xs ->
  (_size (self s) = _capacity (self s) ->
     _capacity (self s) + Z.max 1 (_capacity (self s) / 2) <= max_size /\
     malloc_ok (mem s) (next_block (mem s)) = true) ->
  (forall s1,
     when (bool_decide (_size (self s) = _capacity (self s))) (_grow 1) s
       = Ok tt s1 -> referent r s1 = Some value) ->
  T_copy_throws value = false ->
  exists s',
    push_back r s = Ok tt s' /\
    back s' = Ok (_size (self s)) s' /\
    at_ (_size (self s)) s' = Ok (_size (self s)) s' /\
    operator_index (_size (self s)) s' = Ok (_size (self s)) s' /\
    deref (_size (self s)) s' = Some (Some value).
Proof.
  intros Hs Hsz Helem Hgrow Hr Hcopy.
  destruct (push_back_Ok r value s xs Hs Hsz Helem Hgrow Hr Hcopy)
    as (s' & Hrun & Hs' & Hsize' & Helem' & _).
  destruct (elements_length _ _ _ Helem) as [Hsize Hlen].
  pose proof Hs' as (Hbound' & Hcap' & _).
  exists s'. split_and!; try done.
  - unfold back, bind, this, assert, ret. simpl.
    rewrite bool_decide_true by lia. rewrite Hsize'.
    rewrite wrap_small by lia. f_equal. lia.
  - unfold at_, bind, this, ret. simpl. by rewrite bool_decide_false by lia.
  - unfold operator_index, bind, this, assert, ret. simpl.
    by rewrite bool_decide_true by lia.
  - unfold deref. rewrite bool_decide_true by done.
    rewrite (elements_lookup _ _ _ _ Helem') by lia.
    rewrite lookup_app_r by lia.
    by replace (Z.to_nat (_size (self s)) - length xs)%nat with 0%nat by lia.
Qed.

(** X15: [front()] and [back()].  On an empty container both run into
    their assertion.  On a non-empty one they return references to
    the first and to the last element of [begin(), end()), and leave the
    state as it is. *)
Theorem front_and_back_refer_to_the_ends s xs :
  elements (self s) (mem s) = Some xs ->
  _size (self s) <= SIZE_MAX ->
  (_size (self s) = 0 -> front s = Undefined /\ back s = Undefined) /\
  (_size (self s) <> 0 ->
     front s = Ok 0 s /\ deref 0 s = head xs /\
     back s = Ok (_size (self s) - 1) s /\
     deref (_size (self s) - 1) s = last xs).
Proof.
  intros Helem Hmax.
  destruct (elements_length _ _ _ Helem) as [Hsize Hlen].
  unfold front, back, bind, this, assert, ret, undefined. simpl. split.
  - intros Hz. by rewrite !bool_decide_false by lia.
  - intros Hnz. rewrite !bool_decide_true by done.
    rewrite wrap_small by lia. split_and!; try done.
    + unfold deref. rewrite bool_decide_true by done.
      rewrite (elements_lookup _ _ _ 0 Helem) by lia.
      by rewrite head_lookup.
    + unfold deref. rewrite bool_decide_true by lia.
      rewrite (elements_lookup _ _ _ _ Helem) by lia.
      rewrite last_lookup. f_equal. lia.
Qed.

(** *** empty() *)

(** C9: [empty()] returns 0, that is false, in every reachable state,
    because [_data] is never null; the default-constructed container is
    one such state, and its [size()] is 0. *)
Theorem empty_is_false_in_every_reachable_state :
  is_size_t N ->
  (forall s, reachable s -> empty (self s) = 0) /\
  (forall ok,
     reachable (small_vector_default (fresh_heap ok)) /\
     size (self (small_vector_default (fresh_heap ok))) = 0 /\
     empty (self (small_vector_default (fresh_heap ok))) = 0).
Proof.
  intros HN. split.
  - intros s. by apply reachable_empty.
  - intros ok. split_and!; [constructor|done|done].
Qed.

End properties.

(** ** small_vector<int, 4>: evaluations *)

Section int4_properties.
#[local] Existing Instance int4.

Local Ltac size_t := unfold is_size_t, SIZE_MAX; lia.

Lemma run_push_1_to_4 :
  run push_1_to_4 (small_vector_default plentiful) = Some (full4 plentiful).
Proof. vm_compute. reflexivity. Qed.

Lemma run_push_1_to_5 :
  run push_1_to_5 (small_vector_default plentiful) = Some grown5.
Proof. vm_compute. reflexivity. Qed.

Lemma reachable_grown5 : reachable grown5.
Proof.
  eapply run_reachable; [apply reachable_default| |apply run_push_1_to_5].
  by repeat constructor.
Qed.

Lemma reachable_resized2 : reachable resized2.
Proof.
  apply (reachable_call (call_resize 2) grown5); [apply reachable_grown5| |].
  - simpl. size_t.
  - vm_compute. reflexivity.
Qed.

(** C1, on push_back of 1..5, resize(2), shrink_to_fit(): the state is
    reachable, the container is back in the inline buffer, and its
    capacity is 2, below [N = 4].  From there the next growth and the
    destructor pass the inline buffer to [free].  The other half of the
    invariant, [capacity() >= size()], holds in every reachable state. *)
Theorem shrink_to_fit_leaves_capacity_below_N :
  run (push_1_to_5 ++ [call_resize 2; call_shrink_to_fit])
      (small_vector_default plentiful) = Some shrunk2 /\
  reachable shrunk2 /\
  data (self shrunk2) = inline_buffer /\
  size (self shrunk2) = 2 /\ capacity (self shrunk2) = 2 /\
  ~ (capacity (self shrunk2) >= N) /\
  after (call_push_back (outside 7)) shrunk2 = None /\
  destructor shrunk2 = Undefined /\
  (forall s, reachable s -> capacity (self s) >= size (self s)).
Proof.
  split_and!; try (vm_compute; reflexivity).
  3: { intros s Hs. apply Z.le_ge, reachable_size_le_capacity; [simpl; size_t|done]. }
  - apply (reachable_call call_shrink_to_fit resized2);
      [apply reachable_resized2|done|vm_compute; reflexivity].
  - simpl. lia.
Qed.

(** C2, on the container after push_back of 1..5 and resize(2): it is
    in heap mode with [size() = 2 < capacity() = 6] and [size() <= N];
    shrink_to_fit() succeeds and returns [data()] to the inline buffer,
    but leaves [capacity() = 2], not [N = 4]. *)
Theorem shrink_to_fit_sets_capacity_to_size :
  data (self resized2) = heap_block 0 /\
  size (self resized2) < capacity (self resized2) /\
  size (self resized2) <= N /\
  shrink_to_fit resized2 = Ok tt shrunk2 /\
  data (self shrunk2) = inline_buffer /\
  capacity (self shrunk2) = 2 /\
  capacity (self shrunk2) <> N.
Proof.
  split_and!; try (vm_compute; reflexivity); simpl; lia.
Qed.

(** C5, on the container that holds 1, 2, 3, 4: erase(begin()) destroys
    slot 0 and nothing else; [size()] stays 4, the elements after it are
    not shifted, and no iterator is returned. *)
Theorem erase_neither_shifts_nor_shrinks :
  exists s',
    erase (begin (self (full4 plentiful))) (full4 plentiful) = Ok None s' /\
    size (self s') = 4 /\
    elements (self s') (mem s') = Some [None; Some 2; Some 3; Some 4].
Proof. eexists. split_and!; vm_compute; reflexivity. Qed.

(** C6, on a container in heap mode that holds 1..5 and one in inline
    mode that holds 9: swap changes neither.  On two containers in inline
    mode that hold 1, 2 and 9, swap exchanges the slots but not the
    sizes: the first then reads 9 and a slot without a value, the second
    reads 1. *)
Theorem swap_does_not_exchange :
  swap (self grown5) single9 (mem grown5)
    = Some (self grown5, single9, mem grown5) /\
  elements (self grown5) (mem grown5)
    = Some [Some 1; Some 2; Some 3; Some 4; Some 5] /\
  elements single9 (mem grown5) = Some [Some 9] /\
  exists a b,
    swap pair12 single9 plentiful = Some (a, b, plentiful) /\
    elements a plentiful = Some [Some 9; None] /\
    elements b plentiful = Some [Some 1].
Proof.
  split_and!; try (vm_compute; reflexivity).
  do 2 eexists. split_and!; vm_compute; reflexivity.
Qed.

(** *** The general theorems at this instance *)

Lemma grow_capacity_formula_witness :
  is_size_t (_capacity (self (full4 plentiful))) /\
  (exists s',
     _grow 1 (full4 plentiful) = Ok tt s' /\ _capacity (self s') = 6) /\
  (exists s',
     push_back (outside 5) (full4 plentiful) = Ok tt s' /\
     _capacity (self s') = 6).
Proof.
  assert (is_size_t (_capacity (self (full4 plentiful)))) as Hc
    by (simpl; size_t).
  assert (consistent (full4 plentiful)) as Hs
    by (unfold consistent; simpl; unfold SIZE_MAX; lia).
  split; [exact Hc|].
  destruct (grow_capacity_formula 1 (full4 plentiful)) as (_ & _ & Hex & H46).
  - simpl. lia.
  - exact Hc.
  - size_t.
  - split.
    + destruct (Hex Hs) as (s' & Hrun & Hcap).
      * lia.
      * by vm_compute.
      * reflexivity.
      * exists s'. split; [exact Hrun|exact Hcap].
    + destruct (H46 eq_refl eq_refl) as [_ Hpush].
      destruct (Hpush Hs) with (value := 5) as (s' & Hrun & Hcap).
      * by vm_compute.
      * reflexivity.
      * reflexivity.
      * exists s'. split; [exact Hrun|exact Hcap].
Defined.

Lemma failure_leaves_container_unmodified_witness :
  push_back (outside 5) (full4 exhausted) = Throw bad_alloc failed5 /\
  unmodified (full4 exhausted) failed5.
Proof.
  assert (push_back (outside 5) (full4 exhausted) = Throw bad_alloc failed5)
    as Hthrow
    by (vm_compute; reflexivity).
  split; [exact Hthrow|].
  destruct (failure_leaves_container_unmodified (full4 exhausted) failed5
              bad_alloc (or_introl eq_refl)) as (Hpush & _).
  exact (Hpush (outside 5) Hthrow).
Defined.



Lemma at_checks_the_index_witness :
  is_size_t 2 /\
  at_ 2 (full4 plentiful) = Ok 2 (full4 plentiful) /\
  deref 2 (full4 plentiful) = Some (Some 3).
Proof.
  assert (is_size_t 2) as Hoff by size_t.
  split; [exact Hoff|].
  destruct (at_checks_the_index (full4 plentiful) 2 Hoff) as (_ & _ & Hin).
  destruct Hin as [Hret Hderef]; [simpl; lia|].
  split; [exact Hret|]. exact (Hderef _ eq_refl).
Defined.

Lemma empty_is_false_in_every_reachable_state_witness :
  is_size_t N /\
  size (self (small_vector_default plentiful)) = 0 /\
  empty (self (small_vector_default plentiful)) = 0.
Proof.
  assert (is_size_t N) as HN by (simpl; size_t).
  split; [exact HN|].
  destruct (empty_is_false_in_every_reachable_state HN) as [_ Hdefault].
  destruct (Hdefault (fun _ => true)) as (_ & Hsize & Hempty).
  split; [exact Hsize|exact Hempty].
Defined.

(** *** Further properties at this instance *)

Lemma consistent_full4 h : consistent (full4 h).
Proof. unfold consistent. simpl. unfold SIZE_MAX. lia. Qed.

Lemma consistent_grown5 : consistent grown5.
Proof.
  unfold consistent. simpl. unfold SIZE_MAX. split_and!; try lia.
  eexists. split; [reflexivity|]. simpl. lia.
Qed.

Lemma consistent_resized2 : consistent resized2.
Proof.
  unfold consistent. simpl. unfold SIZE_MAX. split_and!; try lia.
  eexists. split; [reflexivity|]. simpl. lia.
Qed.

Lemma operator_eq_decides_sequence_equality_witness :
  operator_eq (self (full4 plentiful)) (self grown5) (mem grown5)
    = Some false /\
  operator_eq (self grown5) (self grown5) (mem grown5) = Some true.
Proof.
  split.
  - exact (@operator_eq_decides_sequence_equality int4
             (self (full4 plentiful)) (self grown5) (mem grown5)
             [1; 2; 3; 4] [1; 2; 3; 4; 5] eq_refl eq_refl).
  - exact (@operator_eq_decides_sequence_equality int4
             (self grown5) (self grown5) (mem grown5)
             [1; 2; 3; 4; 5] [1; 2; 3; 4; 5] eq_refl eq_refl).
Defined.

Lemma clear_returns_to_inline_mode_witness :
  exists s',
    clear grown5 = Ok tt s' /\
    members s' = (inline_buffer, 4, 0) /\
    blocks (mem s') = delete 0%nat (blocks (mem grown5)).
Proof.
  destruct (clear_returns_to_inline_mode grown5 consistent_grown5)
    as (s' & Hrun & _ & Hmem & _ & _ & Hheap & _).
  exists s'. split_and!; [exact Hrun|exact Hmem|exact (Hheap 0%nat eq_refl)].
Defined.

Lemma resize_to_smaller_size_witness :
  exists s',
    resize 2 grown5 = Ok tt s' /\
    elements (self s') (mem s') = Some [Some 1; Some 2].
Proof.
  destruct (@resize_to_smaller_size int4 grown5 2 (@outside int4 0)
              [Some 1; Some 2; Some 3; Some 4; Some 5]
              consistent_grown5 eq_refl)
    as (s' & buf & Hrun & _ & _ & _ & _ & Helem & _).
  { simpl. lia. }
  exists s'. split; [exact Hrun|exact Helem].
Defined.

Lemma resize_to_larger_size_witness :
  (exists s',
     resize 8 grown5 = Ok tt s' /\
     elements (self s') (mem s')
       = Some [Some 1; Some 2; Some 3; Some 4; Some 5;
               Some 0; Some 0; Some 0]) /\
  (exists s',
     resize_fill 8 (outside 7) grown5 = Ok tt s' /\
     elements (self s') (mem s')
       = Some [Some 1; Some 2; Some 3; Some 4; Some 5;
               Some 7; Some 7; Some 7]).
Proof.
  destruct (@resize_to_larger_size int4 grown5 8
              [Some 1; Some 2; Some 3; Some 4; Some 5]
              consistent_grown5) as [Hdefault Hfill].
  - simpl. lia.
  - reflexivity.
  - simpl. lia.
  - intros _. split; [by vm_compute|reflexivity].
  - split.
    + destruct (Hdefault eq_refl) as (s' & Hrun & _ & _ & _ & Helem).
      exists s'. split; [exact Hrun|exact Helem].
    + destruct (Hfill (@outside int4 7) 7%Z) as (s' & Hrun & _ & _ & _ & Helem).
      * intros s1 _. reflexivity.
      * reflexivity.
      * exists s'. split; [exact Hrun|exact Helem].
Defined.

Lemma shrink_to_fit_fits_the_capacity_witness :
  exists s',
    shrink_to_fit grown5 = Ok tt s' /\
    _capacity (self s') = 5 /\
    elements (self s') (mem s')
      = Some [Some 1; Some 2; Some 3; Some 4; Some 5].
Proof.
  destruct (@shrink_to_fit_fits_the_capacity int4 grown5
              [Some 1; Some 2; Some 3; Some 4; Some 5] consistent_grown5)
    as (s' & Hrun & _ & _ & Hcap & Helem & _).
  - simpl. lia.
  - reflexivity.
  - simpl. lia.
  - simpl. lia.
  - by vm_compute.
  - reflexivity.
  - exists s'. split_and!; [exact Hrun|exact Hcap|exact Helem].
Defined.

Lemma shrink_to_fit_twice_witness :
  shrink_to_fit grown5 = Ok tt fitted5 /\
  shrink_to_fit fitted5 = Ok tt fitted5.
Proof.
  assert (shrink_to_fit grown5 = Ok tt fitted5) as Hrun
    by (vm_compute; reflexivity).
  split; [exact Hrun|]. exact (shrink_to_fit_twice grown5 fitted5 Hrun).
Defined.

Lemma growth_moves_the_elements_witness :
  exists s',
    _grow 1 (full4 plentiful) = Ok tt s' /\
    elements (self s') (mem s')
      = Some [Some 1; Some 2; Some 3; Some 4] /\
    _data (self s') = heap_block 0.
Proof.
  destruct (growth_moves_the_elements (full4 plentiful) 1
              (consistent_full4 plentiful))
    as (s' & Hrun & _ & _ & Helem & Hdata & _).
  - simpl. lia.
  - lia.
  - by vm_compute.
  - reflexivity.
  - exists s'. split_and!; [exact Hrun|exact Helem|exact Hdata].
Defined.

Lemma push_back_with_spare_capacity_witness :
  (exists s',
     push_back (inside (heap_block 0, 1)) resized2 = Ok tt s' /\
     members s' = (heap_block 0, 6, 3) /\
     elements (self s') (mem s') = Some [Some 1; Some 2; Some 2]) /\
  @push_back picky4 (@outside picky4 (-1))
    (@small_vector_default picky4 (@fresh_heap picky4 (fun _ => true)))
  = Throw constructor_exception
      (@small_vector_default picky4 (@fresh_heap picky4 (fun _ => true))).
Proof.
  split.
  - destruct (@push_back_with_spare_capacity int4 resized2
                (inside (heap_block 0, 1)) 2
                [Some 1; Some 2] consistent_resized2 eq_refl)
      as [_ Hcopy].
    + simpl. lia.
    + reflexivity.
    + destruct (Hcopy eq_refl) as (s' & Hrun & _ & Hmem & _ & Helem).
      exists s'. split_and!; [exact Hrun|exact Hmem|exact Helem].
  - destruct (@push_back_with_spare_capacity picky4
                (@small_vector_default picky4
                   (@fresh_heap picky4 (fun _ => true)))
                (@outside picky4 (-1)) (-1) []) as [Hthrow _].
    + apply consistent_default. simpl. size_t.
    + reflexivity.
    + simpl. lia.
    + reflexivity.
    + exact (Hthrow eq_refl).
Defined.



Lemma push_back_then_back_witness :
  exists s',
    push_back (outside 5) (full4 plentiful) = Ok tt s' /\
    back s' = Ok 4 s' /\ deref 4 s' = Some (Some 5).
Proof.
  destruct (@push_back_then_back int4 (full4 plentiful) (@outside int4 5) 5
              [Some 1; Some 2; Some 3; Some 4] (consistent_full4 plentiful))
    as (s' & Hrun & Hback & _ & _ & Hderef).
  - simpl. lia.
  - reflexivity.
  - intros _. split; [by vm_compute|reflexivity].
  - intros s1 _. reflexivity.
  - reflexivity.
  - exists s'. split_and!; [exact Hrun|exact Hback|exact Hderef].
Defined.

Lemma front_and_back_refer_to_the_ends_witness :
  front (full4 plentiful) = Ok 0 (full4 plentiful) /\
  deref 0 (full4 plentiful) = Some (Some 1) /\
  back (full4 plentiful) = Ok 3 (full4 plentiful) /\
  deref 3 (full4 plentiful) = Some (Some 4).
Proof.
  destruct (@front_and_back_refer_to_the_ends int4 (full4 plentiful)
              [Some 1; Some 2; Some 3; Some 4] eq_refl) as [_ Hends].
  - simpl. size_t.
  - destruct Hends as (Hfront & Hhead & Hback & Hlast); [simpl; lia|].
    split_and!; [exact Hfront|exact Hhead|exact Hback|exact Hlast].
Defined.

End int4_properties.

End til.
